(** * Moment-matching controllers of [pilco/controllers.py]

    A shallow embedding of the controller layer: the sine squashing
    transform, the linear, RBF and combined controllers, and the
    linearisation routine of the RBF controller.

    Numbers are the reals of the Standard Library: every arithmetic
    operation of the source is read as the exact operation, so rounding,
    overflow, NaN and infinities are outside the model.  Tensors are nested
    lists; an operation that TensorFlow or NumPy rejects for its shapes
    returns [None]. *)

From Stdlib Require Import Reals Lra Lia.
From stdpp Require Import base option list gmap.

(** ** Tensors of rank one, two and three *)

Module Tensor.

Definition vec := list R.
Definition mat := list (list R).
Definition tensor3 := list mat.

Definition nrows (A : mat) : nat := length A.

(** The column count is read off the first row: a tensor without rows is
    taken to have no columns. *)
Definition ncols (A : mat) : nat :=
  match A with
  | [] => 0
  | row :: _ => length row
  end.

Definition get1 (v : vec) (i : nat) : R := nth i v 0%R.
Definition get2 (A : mat) (i j : nat) : R := nth j (nth i A []) 0%R.

Definition mkvec (n : nat) (f : nat → R) : vec := map f (seq 0 n).
Definition mkmat (r c : nat) (f : nat → nat → R) : mat :=
  map (λ i, mkvec c (f i)) (seq 0 r).

Definition has_shape (r c : nat) (A : mat) : Prop :=
  length A = r ∧ Forall (λ row, length row = c) A.

#[global] Instance has_shape_dec r c A : Decision (has_shape r c A).
Proof. unfold has_shape. apply _. Defined.

(** [sum_n n f] is [f 0 + ... + f (n-1)], the contraction of a matrix
    product. *)
Fixpoint sum_n (n : nat) (f : nat → R) : R :=
  match n with
  | 0 => 0%R
  | S p => (sum_n p f + f p)%R
  end.

(** Broadcasting of one dimension: equal extents, or one of them is 1. *)
Definition bdim (a b : nat) : option nat :=
  if decide (a = b) then Some a
  else if decide (a = 1) then Some b
  else if decide (b = 1) then Some a
  else None.

(** Index into a dimension of extent [d] that may be stretched. *)
Definition bidx (d i : nat) : nat := if decide (d = 1) then 0 else i.

Definition bget (A : mat) (i j : nat) : R :=
  get2 A (bidx (nrows A) i) (bidx (ncols A) j).

(** Elementwise binary operation with broadcasting, [A op B]. *)
Definition bop (f : R → R → R) (A B : mat) : option mat :=
  r ← bdim (nrows A) (nrows B);
  c ← bdim (ncols A) (ncols B);
  Some (mkmat r c (λ i j, f (bget A i j) (bget B i j))).

(** Elementwise unary operation, and operations with a Python scalar. *)
Definition smap (f : R → R) (A : mat) : mat := map (map f) A.

Definition ones (r c : nat) : mat := mkmat r c (λ _ _, 1%R).

(** A rank-one tensor of extent k broadcasts as a 1×k row; [v[None, :]]. *)
Definition row_of (v : vec) : mat := [v].
(** [v[:, None]]: a k×1 column. *)
Definition col_of (v : vec) : mat := map (λ x, [x]) v.

(** [tf.linalg.diag_part] of a rank-two tensor. *)
Definition diag_part (A : mat) : vec :=
  mkvec (min (nrows A) (ncols A)) (λ i, get2 A i i).

(** [tf.linalg.diag] / [np.diag] of a rank-one tensor. *)
Definition diag (v : vec) : mat :=
  mkmat (length v) (length v) (λ i j, if decide (i = j) then get1 v i else 0%R).

(** [tf.linalg.diag] of a rank-two tensor: one diagonal matrix per row. *)
Definition diag_batch (A : mat) : tensor3 := map diag A.

Definition transpose (A : mat) : mat :=
  mkmat (ncols A) (nrows A) (λ i j, get2 A j i).

(** Matrix product [A @ B]. *)
Definition matmul (A B : mat) : option mat :=
  if decide (ncols A = nrows B)
  then Some (mkmat (nrows A) (ncols B)
               (λ i j, sum_n (ncols A) (λ l, get2 A i l * get2 B l j)%R))
  else None.

(** A rank-two tensor times a rank-three one: the rank-two operand is
    broadcast over the batch. *)
Definition bop3 (f : R → R → R) (A : mat) (T : tensor3) : option tensor3 :=
  mapM (bop f A) T.

(** [reshape] to rank two, row-major. *)
Definition reshape_flat (r c : nat) (flat : list R) : option mat :=
  if decide (length flat = r * c)
  then Some (mkmat r c (λ i j, nth (i * c + j) flat 0%R))
  else None.

Definition reshape3 (r c : nat) (T : tensor3) : option mat :=
  reshape_flat r c (concat (concat T)).

Definition reshape2 (r c : nat) (A : mat) : option mat :=
  reshape_flat r c (concat A).

(** [.item()] of a NumPy array: defined for exactly one element. *)
Definition item (A : mat) : option R :=
  match concat A with
  | [x] => Some x
  | _ => None
  end.

Definition symmetric (k : nat) (A : mat) : Prop :=
  has_shape k k A ∧ ∀ i j, i < k → j < k → get2 A i j = get2 A j i.

End Tensor.

Import Tensor.

(** ** The squashing transform *)

Module Squash.

(** [max_action] is a Python number or a tensor; [None] is the default. *)
Inductive action_bound :=
  | BoundScalar (x : R)
  | BoundTensor (A : mat).

(** [max_action * tf.ones((1, k))], or [tf.ones((1, k))] for [None]. *)
Definition scale_ones (max_action : option action_bound) (k : nat) : option mat :=
  match max_action with
  | None => Some (ones 1 k)
  | Some (BoundScalar x) => Some (smap (Rmult x) (ones 1 k))
  | Some (BoundTensor A) => bop Rmult A (ones 1 k)
  end.

Definition squash_sin (m s : mat) (max_action : option action_bound)
  : option (mat * mat * mat) :=
  let k := ncols m in
  max_action ← scale_ones max_action k;
  let dp := diag_part s in
  let damp := row_of (map (λ x, exp (- x / 2)) dp) in
  t ← bop Rmult max_action damp;
  M ← bop Rmult t (smap sin m);
  lq0 ← bop Rplus (col_of dp) (row_of dp);
  let lq := smap (λ x, (- x / 2)%R) lq0 in
  let q := smap exp lq in
  a1 ← bop Rplus lq s;
  d1 ← bop Rminus (smap exp a1) q;
  tm ← bop Rminus (transpose m) m;
  p1 ← bop Rmult d1 (smap cos tm);
  a2 ← bop Rminus lq s;
  d2 ← bop Rminus (smap exp a2) q;
  tp ← bop Rplus (transpose m) m;
  p2 ← bop Rmult d2 (smap cos tp);
  S0 ← bop Rminus p1 p2;
  mm ← bop Rmult max_action (transpose max_action);
  mS ← bop Rmult mm S0;
  let S := smap (λ x, (x / 2)%R) mS in
  dc ← bop Rmult damp (smap cos m);
  C3 ← bop3 Rmult max_action (diag_batch dc);
  C ← reshape3 k k C3;
  Some (M, S, C).

(** The bound that applies to output dimension [i]. *)
Definition bound_at (max_action : option action_bound) (i : nat) : R :=
  match max_action with
  | None => 1%R
  | Some (BoundScalar x) => x
  | Some (BoundTensor A) => get2 A 0 i
  end.

(** The three results of [squash_sin] entry by entry, for a 1×k mean and
    a k×k covariance. *)
Definition squash_mean (k : nat) (m s : mat) (max_action : option action_bound)
  : mat :=
  mkmat 1 k (λ _ j,
    bound_at max_action j * exp (- get2 s j j / 2) * sin (get2 m 0 j))%R.

Definition squash_cov (k : nat) (m s : mat) (max_action : option action_bound)
  : mat :=
  mkmat k k (λ i j,
    bound_at max_action j * bound_at max_action i *
    ((exp (- (get2 s i i + get2 s j j) / 2 + get2 s i j)
      - exp (- (get2 s i i + get2 s j j) / 2))
       * cos (get2 m 0 i - get2 m 0 j)
     - (exp (- (get2 s i i + get2 s j j) / 2 - get2 s i j)
        - exp (- (get2 s i i + get2 s j j) / 2))
       * cos (get2 m 0 i + get2 m 0 j)) / 2)%R.

Definition squash_cross (k : nat) (m s : mat) (max_action : option action_bound)
  : mat :=
  mkmat k k (λ i j,
    bound_at max_action j *
    (if decide (i = j)
     then exp (- get2 s i i / 2) * cos (get2 m 0 i) else 0))%R.

(** A bound that [squash_sin] accepts for [k] controls: absent, a number,
    or a 1×k row. *)
Definition bound_ok (k : nat) (max_action : option action_bound) : Prop :=
  match max_action with
  | Some (BoundTensor A) => has_shape 1 k A
  | _ => True
  end.

End Squash.

Import Squash.

(** ** The linear controller *)

Module LinearController.

Record t := mk {
  W : mat;
  b : mat;
  max_action : option action_bound
}.

Definition compute_action (self : t) (m s : mat) (squash : bool)
  : option (mat * mat * mat) :=
  mW ← matmul m (transpose (W self));
  M ← bop Rplus mW (b self);
  Ws ← matmul (W self) s;
  S ← matmul Ws (transpose (W self));
  let V := transpose (W self) in
  if squash then
    '(M, S', V2) ← squash_sin M S (max_action self);
    V ← matmul V V2;
    Some (M, S', V)
  else Some (M, S, V).

End LinearController.

(** ** Parameters and random draws

    A [gpflow.Parameter] is a mutable object: a location of the store.
    [assign] writes the location in place, so every holder of the same
    parameter sees the new value.  The generator of NumPy is a stream of
    reals of which every call takes as many as the array has entries. *)

Module Params.

Inductive value :=
  | VScalar (x : R)
  | VVec (v : vec)
  | VMat (A : mat).

Abbreviation store := (gmap nat value).
Definition draws := nat → R.

Definition alloc (σ : store) (v : value) : nat * store :=
  let l := fresh (dom σ) in (l, <[l := v]> σ).

Definition read_scalar (σ : store) (l : nat) : option R :=
  match σ !! l with Some (VScalar x) => Some x | _ => None end.
Definition read_vec (σ : store) (l : nat) : option vec :=
  match σ !! l with Some (VVec v) => Some v | _ => None end.
Definition read_mat (σ : store) (l : nat) : option mat :=
  match σ !! l with Some (VMat A) => Some A | _ => None end.

(** [assign] keeps the shape of the variable. *)
Definition same_shape (old new : value) : bool :=
  match old, new with
  | VScalar _, VScalar _ => true
  | VVec u, VVec v => bool_decide (length u = length v)
  | VMat A, VMat B => bool_decide (nrows A = nrows B ∧ ncols A = ncols B)
  | _, _ => false
  end.

Definition assign (σ : store) (l : nat) (v : value) : option store :=
  old ← σ !! l;
  if same_shape old v then Some (<[l := v]> σ) else None.

(** Computations on the store and the generator that may raise: the state
    reached when the exception is raised is kept. *)
Definition eff (A : Type) : Type := store * draws → store * draws * option A.

Definition eff_ret {A} (a : A) : eff A := λ st, (st, Some a).
Definition eff_bind {A B} (f : A → eff B) (m : eff A) : eff B :=
  λ st, match m st with
        | (st', Some a) => f a st'
        | (st', None) => (st', None)
        end.
Definition raise {A} : eff A := λ st, (st, None).

#[global] Instance eff_mret : MRet eff := @eff_ret.
#[global] Instance eff_mbind : MBind eff := @eff_bind.

(** Lifts a computation that only reads. *)
Definition reading {A} (f : store → option A) : eff A :=
  λ st, (st, f st.1).
Definition of_option {A} (o : option A) : eff A := λ st, (st, o).

Definition new (v : value) : eff nat :=
  λ st, let '(l, σ) := alloc st.1 v in ((σ, st.2), Some l).

Definition assign_param (l : nat) (v : value) : eff unit :=
  λ st, match assign st.1 l v with
        | Some σ => ((σ, st.2), Some ())
        | None => (st, None)
        end.

(** [np.random.normal(size=(r, c))], [np.random.randn(r, c)] and
    [np.random.rand(r, c)]: the next [r * c] draws, row-major. *)
Definition draw_mat (r c : nat) : eff mat :=
  λ st, ((st.1, λ n, st.2 (r * c + n)),
         Some (mkmat r c (λ i j, st.2 (i * c + j)))).
Definition draw_vec (n : nat) : eff vec :=
  λ st, ((st.1, λ i, st.2 (n + i)), Some (mkvec n st.2)).

(** [wp m post st]: run from [st], [m] returns without raising and
    [post] holds of its result and of the state it leaves. *)
Definition wp {A} (m : eff A) (post : A → store * draws → Prop)
    (st : store * draws) : Prop :=
  match m st with
  | (st', Some a) => post a st'
  | (_, None) => False
  end.

(** Every parameter of [σ] is still a parameter of [σ'], of the same kind
    and shape. *)
Definition keeps_shapes (σ σ' : store) : Prop :=
  ∀ l v, σ !! l = Some v → ∃ v', σ' !! l = Some v' ∧ same_shape v v' = true.

Definition scalar_at (σ : store) (l : nat) : Prop :=
  ∃ x, σ !! l = Some (VScalar x).

(** [m] keeps the kind and shape of every parameter, whether it returns
    or raises. *)
Definition keeps {A} (m : eff A) : Prop :=
  ∀ st, keeps_shapes st.1 (m st).1.1.

End Params.

Import Params.

(** ** The pseudo-data holder [FakeGPR] *)

Module FakeGPR.

Record kernel_t := mk_kernel {
  lengthscales : nat;
  variance : nat
}.

Record t := mk {
  X : nat;
  Y : nat;
  data : nat * nat;
  kernel : kernel_t;
  likelihood_variance : nat
}.

(** [__init__(data, kernel, X=None, likelihood_variance=1e-4)]: the inputs
    are a new parameter only when no [X] is passed. *)
Definition init (data : mat * mat) (kernel : kernel_t) (X : option nat)
    (likelihood_variance : R) : eff t :=
  x ← match X with
      | None => new (VMat data.1)
      | Some x => mret x
      end;
  y ← new (VMat data.2);
  lv ← new (VScalar 1);
  _ ← assign_param lv (VScalar likelihood_variance);
  mret (mk x y (x, y) kernel lv).

End FakeGPR.

(** ** The RBF controller *)

Module RbfController.

(** [models] is the attribute set by [create_models]; [num_outputs],
    [num_dims] and [num_datapoints] are the attributes the regression core
    keeps of the shape of its data. *)
Record t := mk {
  models : list FakeGPR.t;
  num_outputs : nat;
  num_dims : nat;
  num_datapoints : nat;
  max_action : option action_bound
}.

(** [A[:, i:i + 1]] *)
Definition col_slice (A : mat) (i : nat) : mat :=
  map (λ row, take 1 (drop i row)) A.

(** The kernel of one model: [SquaredExponential] with unit lengthscales,
    whose lengthscales are then replaced by a new, constrained parameter of
    the same value.  Priors and trainability flags are not modelled. *)
Definition new_kernel (n : nat) : eff FakeGPR.kernel_t :=
  v ← new (VScalar 1);
  l0 ← new (VVec (mkvec n (λ _, 1%R)));
  ls ← reading (λ σ, read_vec σ l0);
  l ← new (VVec ls);
  mret (FakeGPR.mk_kernel l v).

Fixpoint create_models_loop (data : mat * mat) (outputs : list nat)
    (models : list FakeGPR.t) : eff (list FakeGPR.t) :=
  match outputs with
  | [] => mret models
  | i :: rest =>
      kernel ← new_kernel (ncols data.1);
      X ← (if decide (i = 0) then mret None
           else prev ← of_option (last models); mret (Some (FakeGPR.X prev)));
      model ← FakeGPR.init (data.1, col_slice data.2 i) kernel X 1e-4;
      create_models_loop data rest (models ++ [model])
  end.

Definition create_models (num_outputs : nat) (data : mat * mat)
  : eff (list FakeGPR.t) :=
  create_models_loop data (seq 0 num_outputs) [].

(** Modelled from the spec: the constructor of the regression core
    ([MGPR.__init__], which is not among the sources) records the number of
    outputs, the input dimensionality and the pseudo-point count of its
    data and builds the per-output models with [create_models]. *)
Definition MGPR_init (data : mat * mat) (max_action : option action_bound)
  : eff t :=
  let num_outputs := ncols data.2 in
  models ← create_models num_outputs data;
  mret (mk models num_outputs (ncols data.1) (nrows data.1) max_action).

Fixpoint fix_kernel_variance (ms : list FakeGPR.t) : eff unit :=
  match ms with
  | [] => mret ()
  | m :: rest =>
      _ ← assign_param (FakeGPR.variance (FakeGPR.kernel m)) (VScalar 1);
      fix_kernel_variance rest
  end.

Definition init (state_dim control_dim num_basis_functions : nat)
    (max_action : option action_bound) : eff t :=
  X0 ← draw_mat num_basis_functions state_dim;
  Y0 ← draw_mat num_basis_functions control_dim;
  self ← MGPR_init (X0, smap (Rmult 0.1) Y0) max_action;
  _ ← fix_kernel_variance (models self);
  mret self.

(** All models hold the parameter [x] as their inputs, also as the first
    component of their [data]. *)
Definition shares_inputs (models : list FakeGPR.t) (x : nat) : Prop :=
  Forall (λ m, FakeGPR.X m = x ∧ FakeGPR.data m = (x, FakeGPR.Y m)) models.

(** The methods inherited from the regression core, which is not among
    the sources: the factorisation, the moment-matching prediction and the
    per-output [variance] accessor.  They read the parameters. *)
Record core := mk_core {
  calculate_factorizations : store → t → option (tensor3 * mat);
  predict_given_factorizations :
    store → t → mat → mat → tensor3 → mat → option (mat * mat * mat);
  variance : store → t → option vec
}.

Definition compute_action (gp : core) (σ : store) (self : t) (m s : mat)
    (squash : bool) : option (mat * mat * mat) :=
  '(iK, beta) ← calculate_factorizations gp σ self;
  '(M, S0, V) ← predict_given_factorizations gp σ self m s
                 (map (smap (Rmult 0)) iK) beta;
  var ← variance gp σ self;
  S ← bop Rminus S0 (diag (map (λ x, (x - 1e-6)%R) var));
  if squash then
    '(M, S', V2) ← squash_sin M S (max_action self);
    V ← matmul V V2;
    Some (M, S', V)
  else Some (M, S, V).

(** [self.max_action / 10 * D] *)
Definition tenth (max_action : option action_bound) : option action_bound :=
  match max_action with
  | None => None
  | Some (BoundScalar x) => Some (BoundScalar (x / 10))
  | Some (BoundTensor A) => Some (BoundTensor (smap (λ v, (v / 10)%R) A))
  end.

Definition scale_by (factor : action_bound) (D : mat) : option mat :=
  match factor with
  | BoundScalar x => Some (smap (Rmult x) D)
  | BoundTensor A => bop Rmult A D
  end.

Section Randomize.

(** The test the parameter library applies to a value assigned to the
    constrained lengthscales. *)
Variable admissible : vec → bool.

Definition randomize_model (max_action : option action_bound)
    (m : FakeGPR.t) : eff unit :=
  A ← reading (λ σ, read_mat σ (FakeGPR.data m).1);
  DX ← draw_mat (nrows A) (ncols A);
  _ ← assign_param (FakeGPR.X m) (VMat DX);
  factor ← of_option (tenth max_action);
  B ← reading (λ σ, read_mat σ (FakeGPR.data m).2);
  DY ← draw_mat (nrows B) (ncols B);
  Yv ← of_option (scale_by factor DY);
  _ ← assign_param (FakeGPR.Y m) (VMat Yv);
  ls ← reading (λ σ, read_vec σ (FakeGPR.lengthscales (FakeGPR.kernel m)));
  DL ← draw_vec (length ls);
  let v := map (λ x, (1 + 0.1 * x)%R) DL in
  if admissible v
  then assign_param (FakeGPR.lengthscales (FakeGPR.kernel m)) (VVec v)
  else raise.

Fixpoint randomize_loop (max_action : option action_bound)
    (ms : list FakeGPR.t) : eff unit :=
  match ms with
  | [] => mret ()
  | m :: rest =>
      _ ← randomize_model max_action m;
      randomize_loop max_action rest
  end.

Definition randomize (self : t) : eff unit :=
  randomize_loop (max_action self) (models self).

End Randomize.

(** *** Linearisation *)

(** An entry of the returned list holds a weight that is an array, or the
    number 0 divided by the count when no centre was visited. *)
Inductive weight :=
  | WeightNumber (x : R)
  | WeightArray (A : mat).

(** [exp_term] of the source, for [temp = (loc - center).reshape(n, 1)]. *)
Definition exp_term (kernel_variance : R) (var : vec) (temp : mat) : option R :=
  tP ← matmul (transpose temp) (diag (map (λ v, (1 / v)%R) var));
  q ← matmul tP temp;
  qi ← item q;
  Some (kernel_variance * exp (-0.5 * qi))%R.

Definition differential_term (e : R) (var : vec) (temp : mat) : option mat :=
  Pt ← matmul (diag (map (λ v, (1 / v)%R) var)) temp;
  Some (smap (Rmult e) Pt).

(** [w += d] on an array: the sum must have the shape of [w]. *)
Definition add_inplace (w d : mat) : option mat :=
  r ← bop Rplus w d;
  if decide (nrows r = nrows w ∧ ncols r = ncols w) then Some r else None.

(** One pass of the inner loop; the collectors are the bias, a number, and
    the weight, the number 0 ([None]) until the first array is added. *)
Definition center_step (σ : store) (state_dim : nat) (m : FakeGPR.t)
    (loc : mat) (acc : R * option mat) (center : vec)
  : option (R * option mat) :=
  var ← read_vec σ (FakeGPR.lengthscales (FakeGPR.kernel m));
  d ← bop Rminus loc (row_of center);
  temp ← reshape2 state_dim 1 d;
  kv ← read_scalar σ (FakeGPR.variance (FakeGPR.kernel m));
  e ← exp_term kv var temp;
  dt ← differential_term e var temp;
  c ← reshape_flat state_dim 1 center;
  dtc ← matmul (transpose dt) c;
  bi ← item (smap (λ x, (e - x)%R) dtc);
  w ← match acc.2 with
      | None => Some (smap (Rplus 0) dt)
      | Some w => add_inplace w dt
      end;
  Some ((acc.1 + bi)%R, Some w).

Fixpoint centers_loop (σ : store) (state_dim : nat) (m : FakeGPR.t)
    (loc : mat) (centers : list vec) (acc : R * option mat)
  : option (R * option mat) :=
  match centers with
  | [] => Some acc
  | center :: rest =>
      acc' ← center_step σ state_dim m loc acc center;
      centers_loop σ state_dim m loc rest acc'
  end.

(** The pair appended after a model: both collectors divided by
    [total_rbfs]; a zero count raises. *)
Definition averaged (total_rbfs : nat) (acc : R * option mat)
  : option (weight * R) :=
  if decide (total_rbfs = 0) then None
  else Some (match acc.2 with
             | None => WeightNumber (0 / INR total_rbfs)
             | Some w => WeightArray (smap (λ x, (x / INR total_rbfs)%R) w)
             end,
             (acc.1 / INR total_rbfs)%R).

Fixpoint models_loop (σ : store) (self : t) (loc : mat)
    (ms : list FakeGPR.t) (acc : R * option mat)
    (returnable_obj : list (weight * R)) : option (list (weight * R)) :=
  match ms with
  | [] => Some returnable_obj
  | m :: rest =>
      centers ← read_mat σ (FakeGPR.data m).1;
      acc' ← centers_loop σ (num_dims self) m loc centers acc;
      pair ← averaged (num_datapoints self) acc';
      models_loop σ self loc rest acc' (returnable_obj ++ [pair])
  end.

(** [loc] is a rank-two array; a rank-one [loc] behaves as its 1×n row. *)
Definition linearize (σ : store) (self : t) (loc : mat)
  : option (list (weight * R)) :=
  models_loop σ self loc (models self) (0%R, None) [].

(** The pair of one output dimension as the specification words it:
    computed from the pseudo-points of that dimension only, that is, with
    collectors that start from zero. *)
Definition own_pair (σ : store) (self : t) (loc : mat) (m : FakeGPR.t)
  : option (weight * R) :=
  centers ← read_mat σ (FakeGPR.data m).1;
  acc ← centers_loop σ (num_dims self) m loc centers (0%R, None);
  averaged (num_datapoints self) acc.

(** The Gaussian RBF with precision [1 / lengthscale²], as the
    specification words the kernel value. *)
Definition gaussian_rbf (kernel_variance : R) (lengthscale loc center : vec) : R :=
  (kernel_variance *
   exp (-0.5 * sum_n (length loc)
                 (λ i, (get1 loc i - get1 center i) * (1 / (get1 lengthscale i)^2)
                       * (get1 loc i - get1 center i))))%R.

End RbfController.

(** ** The combined controller *)

Module CombinedController.

(** The attribute [r] is the Python integer 1 after construction and a
    1×1 tensor once [compute_action] has run. *)
Inductive ratio_attr :=
  | PyInt (z : Z)
  | RatioTensor (A : mat).

Record t := mk {
  rbf_controller : RbfController.t;
  linear_controller : LinearController.t;
  a : mat;
  S : vec;
  r : ratio_attr;
  max_action : option action_bound
}.

Definition set_r (self : t) (v : ratio_attr) : t :=
  mk (rbf_controller self) (linear_controller self) (a self) (S self) v
     (max_action self).

(** [LinearController.__init__(state_dim, control_dim, max_action, W)] *)
Definition linear_init (state_dim control_dim : nat)
    (max_action : option action_bound) (W : option mat)
  : eff LinearController.t :=
  W ← match W with
      | None => draw_mat control_dim state_dim
      | Some W => mret W
      end;
  mret (LinearController.mk W (mkmat 1 control_dim (λ _ _, 0%R)) max_action).

Definition init (state_dim control_dim num_basis_functions : nat)
    (controller_location : option mat) (max_action : option action_bound)
    (W : option mat) : eff t :=
  let controller_location :=
    match controller_location with
    | None => mkmat 1 state_dim (λ _ _, 0%R)
    | Some l => l
    end in
  rbf ← RbfController.init state_dim control_dim num_basis_functions max_action;
  lin ← linear_init state_dim control_dim max_action W;
  mret (mk rbf lin controller_location (mkvec state_dim (λ _, 1%R))
          (PyInt 1) max_action).

Definition compute_ratio (self : t) (x : mat) : option mat :=
  xa ← bop Rminus x (a self);
  xaS ← matmul xa (diag (S self));
  xa' ← bop Rminus x (a self);
  d ← matmul xaS (transpose xa');
  Some (smap (λ v, (1 / (v + 1) ^ 2)%R) d).

(** The weighted squared distance [d] of [compute_ratio], entry by
    entry. *)
Definition distance (n : nat) (x a : mat) (S : vec) : R :=
  sum_n n (λ l, (get2 x 0 l - get2 a 0 l) * get1 S l * (get2 x 0 l - get2 a 0 l))%R.

(** The arithmetic of [compute_action] after the two sub-controllers have
    answered, with [r] the ratio just stored. *)
Definition mix (r : mat) (out1 out2 : mat * mat * mat)
  : option (mat * mat * mat) :=
  let '(M1, S1, V1) := out1 in
  let '(M2, S2, V2) := out2 in
  let r' := smap (λ v, (1 - v)%R) r in
  rM1 ← bop Rmult r M1;
  rM2 ← bop Rmult r' M2;
  M ← bop Rplus rM1 rM2;
  rS1 ← bop Rmult r S1;
  rS2 ← bop Rmult r' S2;
  sum12 ← bop Rplus rS1 rS2;
  D1 ← bop Rminus M1 M;
  rD1 ← bop Rmult r D1;
  D1' ← bop Rminus M1 M;
  P1 ← matmul rD1 (transpose D1');
  sum123 ← bop Rplus sum12 P1;
  D2 ← bop Rminus M2 M;
  rD2 ← bop Rmult r' D2;
  D2' ← bop Rminus M2 M;
  P2 ← matmul rD2 (transpose D2');
  S ← bop Rplus sum123 P2;
  rV1 ← bop Rmult r V1;
  rV2 ← bop Rmult r' V2;
  V ← bop Rplus rV1 rV2;
  Some (M, S, V).

(** [compute_action] returns the controller it leaves behind next to its
    result: the assignment to [self.r] is made before the sub-controllers
    are called and survives an exception raised later. *)
Definition compute_action (gp : RbfController.core) (σ : store) (self : t)
    (m s : mat) (squash : bool) : t * option (mat * mat * mat) :=
  match compute_ratio self m with
  | None => (self, None)
  | Some ratio =>
      let self := set_r self (RatioTensor ratio) in
      (self,
       out1 ← LinearController.compute_action (linear_controller self) m s false;
       out2 ← RbfController.compute_action gp σ (rbf_controller self) m s false;
       r ← match r self with
           | RatioTensor A => Some A
           | PyInt z => Some [[IZR z]]
           end;
       '(M, S0, V) ← mix r out1 out2;
       if squash then
         '(M, S', V2) ← squash_sin M S0 (max_action self);
         V ← matmul V V2;
         Some (M, S', V)
       else Some (M, S0, V))
  end.

Section Randomize.

Variable admissible : vec → bool.

Definition randomize (self : t) : eff unit :=
  RbfController.randomize admissible (rbf_controller self).

End Randomize.

(** The covariance of the two-component mixture as the specification
    words it: the weighted component covariances plus the weighted outer
    products of the deviations of the component means from the combined
    mean. *)
Definition mixture_covariance (c : nat) (r : R) (M1 M2 M S1 S2 : mat) : mat :=
  mkmat c c (λ i j,
    r * get2 S1 i j + (1 - r) * get2 S2 i j
    + r * ((get2 M1 0 i - get2 M 0 i) * (get2 M1 0 j - get2 M 0 j))
    + (1 - r) * ((get2 M2 0 i - get2 M 0 i) * (get2 M2 0 j - get2 M 0 j)))%R.

End CombinedController.

(** ** Regression cores for running the controllers on concrete inputs *)

Module Cores.

(** Modelled from the spec: the accessor of the per-output
    observation-noise floor, which belongs to the regression core and is
    not among the sources, returns the likelihood variance of every
    model. *)
Definition likelihood_variances (σ : store) (self : RbfController.t)
  : option vec :=
  mapM (λ m, read_scalar σ (FakeGPR.likelihood_variance m))
    (RbfController.models self).

(** A core that answers every query with the same moments and whose
    [variance] is the noise floor of the models. *)
Definition noise_floor (out : mat * mat * mat) : RbfController.core :=
  RbfController.mk_core
    (λ _ _, Some ([], []))
    (λ _ _ _ _ _ _, Some out)
    likelihood_variances.

End Cores.

(** ** Concrete controllers *)

Module Examples.

(** The store and the generator before anything is built; every draw is 0. *)
Definition start : store * draws := (∅, λ _, 0%R).

(** [RbfController(state_dim=1, control_dim=2, num_basis_functions=1)] as
    the constructor leaves it from [start]: the parameters it allocates and
    the controller.  Both models hold the inputs at location 3. *)
Definition store2 : store :=
  list_to_map
    [(0, VScalar 1); (1, VVec [1%R]); (2, VVec [1%R]); (3, VMat [[0%R]]);
     (4, VMat [[(0.1 * 0)%R]]); (5, VScalar 1e-4);
     (6, VScalar 1); (7, VVec [1%R]); (8, VVec [1%R]);
     (9, VMat [[(0.1 * 0)%R]]); (10, VScalar 1e-4)].

Definition rbf2 : RbfController.t :=
  RbfController.mk
    [FakeGPR.mk 3 4 (3, 4) (FakeGPR.mk_kernel 2 0) 5;
     FakeGPR.mk 3 9 (3, 9) (FakeGPR.mk_kernel 8 6) 10]
    2 1 1 None.

(** [RbfController(state_dim=1, control_dim=1, num_basis_functions=1)]
    built from [start], after its lengthscale, at location 2, was assigned
    the value 2. *)
Definition store1 : store :=
  <[2 := VVec [2%R]]>
    (list_to_map
       [(0, VScalar 1); (1, VVec [1%R]); (2, VVec [1%R]); (3, VMat [[0%R]]);
        (4, VMat [[(0.1 * 0)%R]]); (5, VScalar 1e-4)]).

Definition rbf1 : RbfController.t :=
  RbfController.mk [FakeGPR.mk 3 4 (3, 4) (FakeGPR.mk_kernel 2 0) 5]
    1 1 1 None.

(** A linear controller for one state and two controls. *)
Definition linear2 : LinearController.t :=
  LinearController.mk [[1%R]; [0%R]] [[0%R; 0%R]] None.

(** The combined controller of the two, centred at 0 with unit scale, as
    its constructor leaves it. *)
Definition combined2 : CombinedController.t :=
  CombinedController.mk rbf2 linear2 [[0%R]] [1%R] (CombinedController.PyInt 1)
    None.

(** A core that predicts mean zero, unit variances and no cross-covariance
    for two controls, and reports the noise floor of the models. *)
Definition core2 : RbfController.core :=
  Cores.noise_floor ([[0%R; 0%R]], [[1%R; 0%R]; [0%R; 1%R]], [[0%R; 0%R]]).

End Examples.

(** ** Randomisation of the linear controller, and states of the models *)

Module LinearControllerRandomize.

(** [p.assign(mean + sigma * np.random.normal(size=p.shape))] with
    [mean = 0] and [sigma = 1], for a parameter held by value. *)
Definition redraw (P : mat) : eff mat :=
  D ← draw_mat (nrows P) (ncols P);
  let v := smap (λ x, (0 + 1 * x)%R) D in
  if same_shape (VMat P) (VMat v) then mret v else raise.

Definition randomize (self : LinearController.t) : eff LinearController.t :=
  W ← redraw (LinearController.W self);
  b ← redraw (LinearController.b self);
  mret (LinearController.mk W b (LinearController.max_action self)).

End LinearControllerRandomize.

Module ModelState.

(** Model [m] is the one [create_models] builds for output [i] from [data]
    with the shared inputs [x]: it holds column [i] of the targets, unit
    lengthscales, kernel variance 1 and likelihood variance [1e-4]. *)
Definition built (σ : store) (data : mat * mat) (x i : nat) (m : FakeGPR.t)
  : Prop :=
  FakeGPR.X m = x ∧ FakeGPR.data m = (x, FakeGPR.Y m) ∧
  σ !! FakeGPR.Y m = Some (VMat (RbfController.col_slice data.2 i)) ∧
  σ !! FakeGPR.lengthscales (FakeGPR.kernel m)
  = Some (VVec (mkvec (ncols data.1) (λ _, 1%R))) ∧
  σ !! FakeGPR.variance (FakeGPR.kernel m) = Some (VScalar 1) ∧
  σ !! FakeGPR.likelihood_variance m = Some (VScalar 1e-4).


(** The parameters [linearize] reads for model [m] exist and fit [n]
    state dimensions. *)
Definition linearizable (σ : store) (n : nat) (m : FakeGPR.t) : Prop :=
  (∃ centers, read_mat σ (FakeGPR.data m).1 = Some centers ∧
              Forall (λ c, length c = n) centers) ∧
  (∃ var, read_vec σ (FakeGPR.lengthscales (FakeGPR.kernel m)) = Some var ∧
          length var = n) ∧
  (∃ kv, read_scalar σ (FakeGPR.variance (FakeGPR.kernel m)) = Some kv).

(** The weight collector is the number 0 or an n×1 column. *)
Definition column_or_zero (n : nat) (acc : R * option mat) : Prop :=
  match acc.2 with
  | None => True
  | Some w => has_shape n 1 w
  end.

(** The shape of the weight of a returned pair. *)
Definition pair_fits (n : nat) (p : RbfController.weight * R) : Prop :=
  match p.1 with
  | RbfController.WeightNumber x => x = 0%R
  | RbfController.WeightArray A => has_shape n 1 A
  end.

End ModelState.

(** ** Facts about the tensor operations *)

Section TensorFacts.

Lemma length_mkvec n f : length (mkvec n f) = n.
Proof. unfold mkvec. by rewrite length_map, length_seq. Qed.

Lemma nth_mkvec n f i d : i < n → nth i (mkvec n f) d = f i.
Proof.
  intros Hi. unfold mkvec.
  rewrite (nth_indep _ d (f 0)) by (rewrite length_map, length_seq; lia).
  rewrite map_nth, seq_nth; [done | lia].
Qed.

Lemma get1_mkvec n f i : i < n → get1 (mkvec n f) i = f i.
Proof. apply nth_mkvec. Qed.

Lemma nrows_mkmat r c f : nrows (mkmat r c f) = r.
Proof. unfold nrows, mkmat. by rewrite length_map, length_seq. Qed.

Lemma ncols_mkmat r c f : 0 < r → ncols (mkmat r c f) = c.
Proof.
  intros Hr. destruct r as [|r]; [lia |].
  unfold mkmat. simpl. apply length_mkvec.
Qed.

Lemma row_mkmat r c f i : i < r → nth i (mkmat r c f) [] = mkvec c (f i).
Proof.
  intros Hi. unfold mkmat.
  rewrite (nth_indep _ [] (mkvec c (f 0))) by (rewrite length_map, length_seq; lia).
  rewrite (map_nth (λ i, mkvec c (f i))), seq_nth; [done | lia].
Qed.

Lemma get2_mkmat r c f i j : i < r → j < c → get2 (mkmat r c f) i j = f i j.
Proof.
  intros Hi Hj. unfold get2. rewrite row_mkmat by done. by apply nth_mkvec.
Qed.

Lemma has_shape_mkmat r c f : has_shape r c (mkmat r c f).
Proof.
  split; [apply nrows_mkmat |].
  unfold mkmat. apply Forall_forall. intros row Hin.
  apply list_elem_of_In, in_map_iff in Hin as (i & <- & _). apply length_mkvec.
Qed.

Lemma mkmat_ext r c f g :
  (∀ i j, i < r → j < c → f i j = g i j) → mkmat r c f = mkmat r c g.
Proof.
  intros Hfg. unfold mkmat, mkvec.
  apply map_ext_in. intros i Hi. apply in_seq in Hi.
  apply map_ext_in. intros j Hj. apply in_seq in Hj.
  apply Hfg; lia.
Qed.

Lemma has_shape_nrows r c A : has_shape r c A → nrows A = r.
Proof. by intros [? _]. Qed.

Lemma has_shape_ncols r c A : has_shape r c A → 0 < r → ncols A = c.
Proof.
  intros [Hr Hc] Hpos. destruct A as [|row A]; simpl in *; [lia |].
  by inversion Hc.
Qed.

Lemma has_shape_row r c A i : has_shape r c A → i < r → length (nth i A []) = c.
Proof.
  intros [Hr Hc] Hi. rewrite Forall_forall in Hc. apply Hc.
  apply list_elem_of_In, nth_In. lia.
Qed.

Lemma vec_eq_nth (u v : list R) :
  length u = length v → (∀ i, i < length u → nth i u 0%R = nth i v 0%R) → u = v.
Proof.
  revert v. induction u as [|x u IH]; intros [|y v] Hl Hn; simpl in *; try done.
  f_equal.
  - apply (Hn 0). lia.
  - apply IH; [lia |]. intros i Hi. apply (Hn (S i)). lia.
Qed.

Lemma mat_eq r c A B :
  has_shape r c A → has_shape r c B →
  (∀ i j, i < r → j < c → get2 A i j = get2 B i j) → A = B.
Proof.
  intros HA HB Hget.
  assert (Hrows : ∀ i, i < r → nth i A [] = nth i B []).
  { intros i Hi. apply vec_eq_nth.
    - by rewrite (has_shape_row r c A), (has_shape_row r c B).
    - intros j Hj. rewrite (has_shape_row r c A) in Hj by done.
      by apply Hget. }
  destruct HA as [HlA _], HB as [HlB _]. subst r.
  clear Hget. revert B HlB Hrows.
  induction A as [|a A IH]; intros [|b B] Hl Hn; simpl in *; try done.
  f_equal.
  - apply (Hn 0). lia.
  - apply IH; [lia |]. intros i Hi. apply (Hn (S i)). lia.
Qed.

Lemma mat_eta r c A : has_shape r c A → A = mkmat r c (get2 A).
Proof.
  intros HA. apply (mat_eq r c); [done | apply has_shape_mkmat |].
  intros i j Hi Hj. by rewrite get2_mkmat.
Qed.

Lemma map_mkvec (g : R → R) n f : map g (mkvec n f) = mkvec n (λ i, g (f i)).
Proof. unfold mkvec. by rewrite map_map. Qed.

Lemma smap_mkmat g r c f : smap g (mkmat r c f) = mkmat r c (λ i j, g (f i j)).
Proof.
  unfold smap, mkmat. rewrite map_map. apply map_ext. intros i.
  apply map_mkvec.
Qed.

Lemma row_of_mkvec n f : row_of (mkvec n f) = mkmat 1 n (λ _ j, f j).
Proof. reflexivity. Qed.

Lemma col_of_mkvec n f : col_of (mkvec n f) = mkmat n 1 (λ i _, f i).
Proof. unfold col_of, mkmat, mkvec. by rewrite map_map. Qed.

Lemma bdim_same k : bdim k k = Some k.
Proof. unfold bdim. by rewrite decide_True. Qed.

Lemma bdim_1_l k : bdim 1 k = Some k.
Proof. unfold bdim. repeat case_decide; congruence. Qed.

Lemma bdim_1_r k : bdim k 1 = Some k.
Proof. unfold bdim. repeat case_decide; congruence. Qed.

Lemma bidx_1 i : bidx 1 i = 0.
Proof. reflexivity. Qed.

Lemma bidx_lt d i : i < d → bidx d i = i.
Proof. intros Hi. unfold bidx. case_decide; lia. Qed.

Lemma bidx_bdim_l a b d i : bdim a b = Some d → 0 < a → i < d → bidx a i < a.
Proof.
  unfold bdim, bidx. intros Hd Ha Hi.
  repeat case_decide; simplify_eq; lia.
Qed.

Lemma bidx_bdim_r a b d i : bdim a b = Some d → 0 < b → i < d → bidx b i < b.
Proof.
  unfold bdim, bidx. intros Hd Hb Hi.
  repeat case_decide; simplify_eq; lia.
Qed.

(** Broadcasting of two tensors given by their entries. *)
Lemma bop_mkmat f r1 c1 r2 c2 r c g h :
  0 < r1 → 0 < r2 → bdim r1 r2 = Some r → bdim c1 c2 = Some c →
  (0 < c → 0 < c1 ∧ 0 < c2) →
  bop f (mkmat r1 c1 g) (mkmat r2 c2 h)
  = Some (mkmat r c (λ i j, f (g (bidx r1 i) (bidx c1 j))
                              (h (bidx r2 i) (bidx c2 j)))).
Proof.
  intros Hr1 Hr2 Hr Hc Hpos. unfold bop, bget.
  rewrite !nrows_mkmat, !ncols_mkmat by done.
  rewrite Hr, Hc. simpl. f_equal. apply mkmat_ext. intros i j Hi Hj.
  destruct Hpos as [Hc1 Hc2]; [lia |].
  rewrite !get2_mkmat; eauto using bidx_bdim_l, bidx_bdim_r.
Qed.

Lemma bop_same f r c g h :
  0 < r →
  bop f (mkmat r c g) (mkmat r c h) = Some (mkmat r c (λ i j, f (g i j) (h i j))).
Proof.
  intros Hr. unfold bop, bget.
  rewrite !nrows_mkmat, !ncols_mkmat, !bdim_same by done. simpl. f_equal.
  apply mkmat_ext. intros i j Hi Hj.
  rewrite !get2_mkmat by (rewrite bidx_lt; lia). by rewrite !bidx_lt.
Qed.

Lemma bop_col_row f k g h :
  0 < k →
  bop f (mkmat k 1 g) (mkmat 1 k h) = Some (mkmat k k (λ i j, f (g i 0) (h 0 j))).
Proof.
  intros Hk.
  rewrite (bop_mkmat f k 1 1 k k k) by (auto using bdim_1_l, bdim_1_r; lia).
  f_equal. apply mkmat_ext. intros i j Hi Hj. by rewrite !bidx_1, !bidx_lt.
Qed.

Lemma bop_row_col f k g h :
  0 < k →
  bop f (mkmat 1 k g) (mkmat k 1 h) = Some (mkmat k k (λ i j, f (g 0 j) (h i 0))).
Proof.
  intros Hk.
  rewrite (bop_mkmat f 1 k k 1 k k) by (auto using bdim_1_l, bdim_1_r; lia).
  f_equal. apply mkmat_ext. intros i j Hi Hj. by rewrite !bidx_1, !bidx_lt.
Qed.

Lemma bop_row_mat f r c g h :
  0 < r →
  bop f (mkmat 1 c g) (mkmat r c h) = Some (mkmat r c (λ i j, f (g 0 j) (h i j))).
Proof.
  intros Hr.
  rewrite (bop_mkmat f 1 c r c r c) by (auto using bdim_1_l, bdim_same; lia).
  f_equal. apply mkmat_ext. intros i j Hi Hj. by rewrite !bidx_1, !bidx_lt.
Qed.

Lemma bop_one_mat f r c g h :
  0 < r → 0 < c →
  bop f (mkmat 1 1 g) (mkmat r c h) = Some (mkmat r c (λ i j, f (g 0 0) (h i j))).
Proof.
  intros Hr Hc.
  rewrite (bop_mkmat f 1 1 r c r c) by (auto using bdim_1_l; lia).
  f_equal. apply mkmat_ext. intros i j Hi Hj. by rewrite !bidx_1, !bidx_lt.
Qed.

Lemma bop_mat_one f r c g h :
  0 < r → 0 < c →
  bop f (mkmat r c g) (mkmat 1 1 h) = Some (mkmat r c (λ i j, f (g i j) (h 0 0))).
Proof.
  intros Hr Hc.
  rewrite (bop_mkmat f r c 1 1 r c) by (auto using bdim_1_r; lia).
  f_equal. apply mkmat_ext. intros i j Hi Hj. by rewrite !bidx_1, !bidx_lt.
Qed.

Lemma transpose_mkmat r c f :
  0 < r → transpose (mkmat r c f) = mkmat c r (λ i j, f j i).
Proof.
  intros Hr. unfold transpose. rewrite nrows_mkmat, ncols_mkmat by done.
  apply mkmat_ext. intros i j Hi Hj. by rewrite get2_mkmat.
Qed.

Lemma sum_n_ext n f g : (∀ l, l < n → f l = g l) → sum_n n f = sum_n n g.
Proof.
  induction n as [|n IH]; intros Hfg; simpl; [done |].
  rewrite IH, Hfg by (intros; try apply Hfg; lia). done.
Qed.

Lemma matmul_mkmat r n c g h :
  0 < r → 0 < n →
  matmul (mkmat r n g) (mkmat n c h)
  = Some (mkmat r c (λ i j, sum_n n (λ l, g i l * h l j)%R)).
Proof.
  intros Hr Hn. unfold matmul.
  rewrite !nrows_mkmat, !ncols_mkmat by done.
  rewrite decide_True by done. f_equal.
  apply mkmat_ext. intros i j Hi Hj. apply sum_n_ext. intros l Hl.
  by rewrite !get2_mkmat.
Qed.

Lemma diag_part_mkmat k f : 0 < k → diag_part (mkmat k k f) = mkvec k (λ i, f i i).
Proof.
  intros Hk. unfold diag_part, mkvec.
  rewrite nrows_mkmat, ncols_mkmat, Nat.min_id by done.
  apply map_ext_in. intros i Hi. apply in_seq in Hi.
  apply get2_mkmat; lia.
Qed.

Lemma diag_mkvec k f :
  diag (mkvec k f) = mkmat k k (λ i j, if decide (i = j) then f i else 0%R).
Proof.
  unfold diag. rewrite length_mkvec. apply mkmat_ext. intros i j Hi Hj.
  case_decide; [| done]. by apply get1_mkvec.
Qed.

Lemma concat_mkmat_length r c f : length (concat (mkmat r c f)) = r * c.
Proof.
  unfold mkmat. generalize 0 as start.
  induction r as [|r IH]; intros start; simpl; [done |].
  rewrite length_app, length_mkvec, IH. lia.
Qed.

Lemma nth_concat (A : mat) c i j :
  Forall (λ row, length row = c) A → j < c →
  nth (i * c + j) (concat A) 0%R = get2 A i j.
Proof.
  intros HA Hj. revert i. induction HA as [|row A Hrow HA IH]; intros i.
  - unfold get2. simpl. by destruct (i * c + j), i, j.
  - destruct i as [|i]; simpl.
    + unfold get2. simpl. rewrite app_nth1 by lia. done.
    + rewrite app_nth2 by lia.
      replace (c + i * c + j - length row) with (i * c + j) by lia.
      apply IH.
Qed.

Lemma concat_length r c (A : mat) : has_shape r c A → length (concat A) = r * c.
Proof.
  intros [Hr Hc]. subst r. induction Hc as [|row A Hrow HA IH]; simpl; [done |].
  rewrite length_app, IH. lia.
Qed.

Lemma reshape_flat_concat r c A :
  has_shape r c A → reshape_flat r c (concat A) = Some A.
Proof.
  intros HA. unfold reshape_flat.
  rewrite (concat_length r c) by done.
  rewrite decide_True by done. f_equal. symmetry.
  apply (mat_eq r c); [done | apply has_shape_mkmat |].
  intros i j Hi Hj. rewrite get2_mkmat by done. symmetry.
  apply nth_concat; [apply HA | done].
Qed.

Lemma mat_eta_row k m : has_shape 1 k m → m = mkmat 1 k (λ _ j, get2 m 0 j).
Proof.
  intros Hm. apply (mat_eq 1 k); [done | apply has_shape_mkmat |].
  intros i j Hi Hj. rewrite get2_mkmat by done. by replace i with 0 by lia.
Qed.

End TensorFacts.

(** ** The squashing transform in closed form *)

Section SquashFacts.

#[local] Arguments mkmat : simpl never.
#[local] Arguments mkvec : simpl never.

Ltac tensor_step :=
  first
    [ rewrite smap_mkmat
    | rewrite transpose_mkmat by lia
    | rewrite bop_same by lia
    | rewrite bop_col_row by lia
    | rewrite bop_row_col by lia ];
  cbn [mbind option_bind].

Lemma scale_ones_ok k max_action :
  0 < k → bound_ok k max_action →
  scale_ones max_action k = Some (mkmat 1 k (λ _ j, bound_at max_action j)).
Proof.
  intros Hk Hok. destruct max_action as [[x | A] |]; unfold scale_ones, ones.
  - rewrite smap_mkmat. f_equal. apply mkmat_ext. intros. simpl. lra.
  - simpl in Hok. rewrite (mat_eta_row k A Hok) at 1.
    rewrite bop_same by lia. f_equal. apply mkmat_ext. intros. simpl. lra.
  - done.
Qed.

Lemma diag_batch_row k f :
  diag_batch (mkmat 1 k f)
  = [mkmat k k (λ i j, if decide (i = j) then f 0 i else 0%R)].
Proof. unfold diag_batch. change (mkmat 1 k f) with [mkvec k (f 0)]. simpl. by rewrite diag_mkvec. Qed.

Lemma bop3_single f A B C : bop f A B = Some C → bop3 f A [B] = Some [C].
Proof. intros H. unfold bop3. simpl. by rewrite H. Qed.

Lemma reshape3_single r c A : has_shape r c A → reshape3 r c [A] = Some A.
Proof.
  intros HA. unfold reshape3. simpl. rewrite app_nil_r.
  by apply reshape_flat_concat.
Qed.

Lemma squash_sin_mkmat k mf sf max_action :
  0 < k → bound_ok k max_action →
  squash_sin (mkmat 1 k (λ _ j, mf j)) (mkmat k k sf) max_action
  = Some
      (mkmat 1 k (λ _ j, bound_at max_action j * exp (- sf j j / 2) * sin (mf j)),
       mkmat k k (λ i j,
         bound_at max_action j * bound_at max_action i *
         ((exp (- (sf i i + sf j j) / 2 + sf i j) - exp (- (sf i i + sf j j) / 2))
            * cos (mf i - mf j)
          - (exp (- (sf i i + sf j j) / 2 - sf i j) - exp (- (sf i i + sf j j) / 2))
            * cos (mf i + mf j)) / 2),
       mkmat k k (λ i j,
         bound_at max_action j *
         (if decide (i = j) then exp (- sf i i / 2) * cos (mf i) else 0)))%R.
Proof.
  intros Hk Hok. unfold squash_sin.
  rewrite ncols_mkmat by lia.
  rewrite scale_ones_ok by done. cbn [mbind option_bind].
  rewrite diag_part_mkmat by done.
  rewrite map_mkvec, !row_of_mkvec, col_of_mkvec.
  repeat tensor_step.
  rewrite diag_batch_row.
  erewrite bop3_single by (apply bop_row_mat; lia). cbn [mbind option_bind].
  rewrite reshape3_single by apply has_shape_mkmat. cbn [mbind option_bind].
  done.
Qed.

(** The closed form for arbitrary well-shaped arguments. *)
Lemma squash_sin_closed k m s max_action :
  0 < k → has_shape 1 k m → has_shape k k s → bound_ok k max_action →
  squash_sin m s max_action
  = Some (squash_mean k m s max_action, squash_cov k m s max_action,
          squash_cross k m s max_action).
Proof.
  intros Hk Hm Hs Hok. unfold squash_mean, squash_cov, squash_cross.
  rewrite <- (squash_sin_mkmat k (get2 m 0) (get2 s) max_action Hk Hok).
  by rewrite <- (mat_eta_row k m Hm), <- (mat_eta k k s Hs).
Qed.

Lemma squash_cov_symmetric k m s max_action :
  symmetric k s → symmetric k (squash_cov k m s max_action).
Proof.
  intros [Hs Hsym]. split; [apply has_shape_mkmat |].
  intros i j Hi Hj. unfold squash_cov. rewrite !get2_mkmat by done.
  rewrite (Hsym j i) by done.
  rewrite (Rplus_comm (get2 s j j)), (Rplus_comm (get2 m 0 j)).
  replace (get2 m 0 j - get2 m 0 i)%R with (- (get2 m 0 i - get2 m 0 j))%R
    by ring.
  rewrite cos_neg.
  by rewrite (Rmult_comm (bound_at max_action i)).
Qed.

Lemma exp_nonpos_le_1 x : (x <= 0 → exp x <= 1)%R.
Proof.
  intros [Hlt | ->].
  - left. rewrite <- exp_0. by apply exp_increasing.
  - rewrite exp_0. lra.
Qed.

Lemma damped_sine_bound a v x :
  (0 <= v → Rabs (a * exp (- v / 2) * sin x) <= Rabs a)%R.
Proof.
  intros Hv. rewrite !Rabs_mult.
  pose proof (exp_pos (- v / 2)) as Hpos.
  pose proof (exp_nonpos_le_1 (- v / 2)) as Hle.
  rewrite (Rabs_right (exp _)) by lra.
  assert (Rabs (sin x) <= 1)%R as Hsin by (apply Rabs_le, SIN_bound).
  pose proof (Rabs_pos a). pose proof (Rabs_pos (sin x)).
  assert (exp (- v / 2) * Rabs (sin x) <= 1)%R by (specialize (Hle ltac:(lra)); nra).
  nra.
Qed.

(** C1. For a 1×k mean, a k×k covariance with non-negative diagonal and
    an absent, scalar or 1×k [max_action], [squash_sin] returns a mean
    whose entry i is [max_action_i * exp (- s_ii / 2) * sin m_i], the bound
    being 1 when [max_action] is absent; its absolute value is at most that
    of the bound, hence at most the bound itself when that is not
    negative. *)
Theorem C1_squash_sin_mean (k : nat) (m s : mat)
    (max_action : option action_bound) :
  0 < k → has_shape 1 k m → has_shape k k s → bound_ok k max_action →
  (∀ i, i < k → (0 <= get2 s i i)%R) →
  ∃ M S C,
    squash_sin m s max_action = Some (M, S, C) ∧ has_shape 1 k M ∧
    bound_at None 0 = 1%R ∧
    ∀ i, i < k →
      get2 M 0 i
      = (bound_at max_action i * exp (- get2 s i i / 2) * sin (get2 m 0 i))%R ∧
      (Rabs (get2 M 0 i) <= Rabs (bound_at max_action i))%R ∧
      ((0 <= bound_at max_action i)%R →
       (- bound_at max_action i <= get2 M 0 i <= bound_at max_action i)%R).
Proof.
  intros Hk Hm Hs Hok Hdiag.
  eexists _, _, _. split; [by apply (squash_sin_closed k) |].
  split; [apply has_shape_mkmat |]. split; [done |].
  intros i Hi. unfold squash_mean. rewrite get2_mkmat by lia.
  split; [done |].
  pose proof (damped_sine_bound (bound_at max_action i) (get2 s i i)
                (get2 m 0 i) (Hdiag i Hi)) as Hb.
  split; [done |]. intros Hpos.
  rewrite (Rabs_right (bound_at max_action i)) in Hb by lra.
  revert Hb. unfold Rabs. destruct (Rcase_abs _); lra.
Qed.

Lemma C1_squash_sin_mean_witness :
  ∃ M S C,
    squash_sin [[0%R]] [[0%R]] None = Some (M, S, C) ∧ has_shape 1 1 M ∧
    bound_at None 0 = 1%R ∧
    ∀ i, i < 1 →
      get2 M 0 i
      = (bound_at None i * exp (- get2 [[0%R]] i i / 2) * sin (get2 [[0%R]] 0 i))%R ∧
      (Rabs (get2 M 0 i) <= Rabs (bound_at None i))%R ∧
      ((0 <= bound_at None i)%R →
       (- bound_at None i <= get2 M 0 i <= bound_at None i)%R).
Proof.
  apply (C1_squash_sin_mean 1 [[0%R]] [[0%R]] None).
  - lia.
  - split; [reflexivity | repeat constructor].
  - split; [reflexivity | repeat constructor].
  - exact I.
  - intros i Hi. destruct i; [unfold get2; simpl; lra | lia].
Defined.

End SquashFacts.

(** ** Finite sums *)

Section Sums.

Lemma sum_n_zero n f : (∀ l, l < n → f l = 0%R) → sum_n n f = 0%R.
Proof.
  induction n as [|n IH]; intros Hf; simpl; [done |].
  rewrite IH, Hf by (intros; try apply Hf; lia). lra.
Qed.

Lemma sum_n_plus n f g :
  sum_n n (λ l, f l + g l)%R = (sum_n n f + sum_n n g)%R.
Proof. induction n as [|n IH]; simpl; [lra | rewrite IH; lra]. Qed.

Lemma sum_n_mult_r n f x : sum_n n (λ l, f l * x)%R = (sum_n n f * x)%R.
Proof. induction n as [|n IH]; simpl; [lra | rewrite IH; lra]. Qed.

Lemma sum_n_mult_l n f x : sum_n n (λ l, x * f l)%R = (x * sum_n n f)%R.
Proof. induction n as [|n IH]; simpl; [lra | rewrite IH; lra]. Qed.

Lemma sum_n_swap n p (f : nat → nat → R) :
  sum_n n (λ i, sum_n p (λ j, f i j)) = sum_n p (λ j, sum_n n (λ i, f i j)).
Proof.
  induction n as [|n IH]; simpl.
  - symmetry. by apply sum_n_zero.
  - rewrite IH, <- sum_n_plus. done.
Qed.

Lemma sum_n_nonneg n f : (∀ l, l < n → (0 <= f l)%R) → (0 <= sum_n n f)%R.
Proof.
  induction n as [|n IH]; intros Hf; simpl; [lra |].
  assert (0 <= sum_n n f)%R by (apply IH; intros; apply Hf; lia).
  assert (0 <= f n)%R by (apply Hf; lia). lra.
Qed.

End Sums.

(** ** The linear controller in closed form *)

Section LinearFacts.

#[local] Arguments mkmat : simpl never.
#[local] Arguments mkvec : simpl never.

Lemma linear_mkmat n c Wf bf mf sf max_action :
  0 < n → 0 < c →
  LinearController.compute_action
    (LinearController.mk (mkmat c n Wf) (mkmat 1 c bf) max_action)
    (mkmat 1 n mf) (mkmat n n sf) false
  = Some
      (mkmat 1 c (λ i j, sum_n n (λ l, mf i l * Wf j l) + bf i j)%R,
       mkmat c c (λ i j, sum_n n (λ l, sum_n n (λ a, Wf i a * sf a l) * Wf j l))%R,
       mkmat n c (λ i j, Wf j i)).
Proof.
  intros Hn Hc. unfold LinearController.compute_action.
  cbn [LinearController.W LinearController.b LinearController.max_action].
  rewrite !transpose_mkmat by lia.
  rewrite !matmul_mkmat by lia. cbn [mbind option_bind].
  rewrite bop_same by lia. cbn [mbind option_bind].
  rewrite matmul_mkmat by lia. cbn [mbind option_bind].
  done.
Qed.

Lemma linear_closed self n c m s :
  0 < n → 0 < c →
  has_shape c n (LinearController.W self) →
  has_shape 1 c (LinearController.b self) →
  has_shape 1 n m → has_shape n n s →
  LinearController.compute_action self m s false
  = Some
      (mkmat 1 c (λ i j,
         sum_n n (λ l, get2 m i l * get2 (LinearController.W self) j l)
         + get2 (LinearController.b self) i j)%R,
       mkmat c c (λ i j,
         sum_n n (λ l,
           sum_n n (λ a, get2 (LinearController.W self) i a * get2 s a l)
           * get2 (LinearController.W self) j l))%R,
       mkmat n c (λ i j, get2 (LinearController.W self) j i)).
Proof.
  intros Hn Hc HW Hb Hm Hs. destruct self as [W b max_action]. simpl in *.
  rewrite <- (linear_mkmat n c (get2 W) (get2 b) (get2 m) (get2 s) max_action)
    by done.
  by rewrite <- (mat_eta c n W), <- (mat_eta 1 c b), <- (mat_eta 1 n m),
    <- (mat_eta n n s).
Qed.

(** With [squash=True] the controller pipes the unsquashed mean and
    covariance through [squash_sin] and multiplies the cross-covariances. *)
Lemma linear_squash self m s M S V :
  LinearController.compute_action self m s false = Some (M, S, V) →
  LinearController.compute_action self m s true
  = '(M', S', C) ← squash_sin M S (LinearController.max_action self);
    V' ← matmul V C;
    Some (M', S', V').
Proof.
  unfold LinearController.compute_action. intros H.
  destruct (matmul m _) as [mW|]; [|done]. cbn [mbind option_bind] in *.
  destruct (bop Rplus mW _) as [M0|]; [|done]. cbn [mbind option_bind] in *.
  destruct (matmul _ s) as [Ws|]; [|done]. cbn [mbind option_bind] in *.
  destruct (matmul Ws _) as [S0|]; [|done]. cbn [mbind option_bind] in *.
  by simplify_eq.
Qed.

Lemma linear_unfold self m s M S V :
  LinearController.compute_action self m s false = Some (M, S, V) →
  (mW ← matmul m (transpose (LinearController.W self));
   bop Rplus mW (LinearController.b self)) = Some M ∧
  (Ws ← matmul (LinearController.W self) s;
   matmul Ws (transpose (LinearController.W self))) = Some S ∧
  V = transpose (LinearController.W self).
Proof.
  unfold LinearController.compute_action. intros H.
  destruct (matmul m _) as [mW|]; [|done]. cbn [mbind option_bind] in *.
  destruct (bop Rplus mW _) as [M0|]; [|done]. cbn [mbind option_bind] in *.
  destruct (matmul _ s) as [Ws|]; [|done]. cbn [mbind option_bind] in *.
  destruct (matmul Ws _) as [S0|]; [|done]. cbn [mbind option_bind] in *.
  by simplify_eq.
Qed.

(** C7. Without squashing the linear controller returns [M = m·Wᵀ + b],
    [S = W·s·Wᵀ] and [V = Wᵀ]; for the zero covariance [S] is the zero
    matrix; with squashing it returns the mean and covariance of
    [squash_sin M S max_action] and [V = Wᵀ·C], [C] being the
    cross-covariance of [squash_sin]. *)
Theorem C7_linear_compute_action (self : LinearController.t) (n c : nat)
    (m s : mat) :
  0 < n → 0 < c →
  has_shape c n (LinearController.W self) →
  has_shape 1 c (LinearController.b self) →
  has_shape 1 n m → has_shape n n s →
  bound_ok c (LinearController.max_action self) →
  ∃ M S V,
    LinearController.compute_action self m s false = Some (M, S, V) ∧
    (mW ← matmul m (transpose (LinearController.W self));
     bop Rplus mW (LinearController.b self)) = Some M ∧
    (Ws ← matmul (LinearController.W self) s;
     matmul Ws (transpose (LinearController.W self))) = Some S ∧
    V = transpose (LinearController.W self) ∧
    (∀ j, j < c →
       get2 M 0 j
       = (sum_n n (λ l, get2 m 0 l * get2 (LinearController.W self) j l)
          + get2 (LinearController.b self) 0 j)%R) ∧
    (∀ i j, i < c → j < c →
       get2 S i j
       = sum_n n (λ l,
           sum_n n (λ a, get2 (LinearController.W self) i a * get2 s a l)
           * get2 (LinearController.W self) j l)%R) ∧
    (∀ i j, i < n → j < c → get2 V i j = get2 (LinearController.W self) j i) ∧
    (s = mkmat n n (λ _ _, 0%R) → S = mkmat c c (λ _ _, 0%R)) ∧
    ∃ M' S' C V',
      squash_sin M S (LinearController.max_action self) = Some (M', S', C) ∧
      matmul V C = Some V' ∧
      LinearController.compute_action self m s true = Some (M', S', V').
Proof.
  intros Hn Hc HW Hb Hm Hs Hok.
  pose proof (linear_closed self n c m s Hn Hc HW Hb Hm Hs) as Heq.
  eexists _, _, _. split; [exact Heq |].
  destruct (linear_unfold _ _ _ _ _ _ Heq) as (HM & HS & HV).
  split; [exact HM |]. split; [exact HS |]. split; [exact HV |].
  split; [intros j Hj; by rewrite get2_mkmat by lia |].
  split; [intros i j Hi Hj; by rewrite get2_mkmat by lia |].
  split; [intros i j Hi Hj; by rewrite get2_mkmat by lia |].
  split.
  - intros ->. apply mkmat_ext. intros i j Hi Hj.
    apply sum_n_zero. intros l Hl.
    rewrite (sum_n_zero n); [lra |]. intros a Ha.
    rewrite get2_mkmat by lia. lra.
  - eexists _, _, _, _.
    split; [apply (squash_sin_closed c); done || apply has_shape_mkmat |].
    unfold squash_cross.
    split; [apply matmul_mkmat; lia |].
    rewrite (linear_squash _ _ _ _ _ _ Heq).
    rewrite (squash_sin_closed c) by (done || apply has_shape_mkmat).
    cbn [mbind option_bind]. unfold squash_cross.
    by rewrite matmul_mkmat by lia.
Qed.

Lemma C7_linear_compute_action_witness :
  ∃ M S V,
    LinearController.compute_action
      (LinearController.mk [[1%R]] [[0%R]] (Some (BoundScalar 1)))
      [[0%R]] [[0%R]] false = Some (M, S, V) ∧
    V = transpose [[1%R]].
Proof.
  destruct (C7_linear_compute_action
              (LinearController.mk [[1%R]] [[0%R]] (Some (BoundScalar 1)))
              1 1 [[0%R]] [[0%R]])
    as (M & S & V & H1 & _ & _ & H2 & _).
  - lia.
  - lia.
  - split; [reflexivity | repeat constructor].
  - split; [reflexivity | repeat constructor].
  - split; [reflexivity | repeat constructor].
  - split; [reflexivity | repeat constructor].
  - exact I.
  - by exists M, S, V.
Defined.

Lemma linear_cov_symmetric n c W s :
  symmetric n s →
  symmetric c
    (mkmat c c (λ i j,
       sum_n n (λ l, sum_n n (λ a, get2 W i a * get2 s a l) * get2 W j l))%R).
Proof.
  intros [Hs Hsym]. split; [apply has_shape_mkmat |].
  intros i j Hi Hj. rewrite !get2_mkmat by done.
  transitivity
    (sum_n n (λ l, sum_n n (λ a, get2 W i a * get2 s a l * get2 W j l)))%R.
  { apply sum_n_ext. intros l Hl. by rewrite sum_n_mult_r. }
  rewrite sum_n_swap. apply sum_n_ext. intros a Ha.
  rewrite <- sum_n_mult_r. apply sum_n_ext. intros l Hl.
  rewrite (Hsym l a) by done. ring.
Qed.

Lemma linear_symmetric self n c m s squash :
  0 < n → 0 < c →
  has_shape c n (LinearController.W self) →
  has_shape 1 c (LinearController.b self) →
  has_shape 1 n m → symmetric n s →
  bound_ok c (LinearController.max_action self) →
  ∃ M S V,
    LinearController.compute_action self m s squash = Some (M, S, V) ∧
    symmetric c S.
Proof.
  intros Hn Hc HW Hb Hm Hs Hok.
  pose proof (linear_closed self n c m s Hn Hc HW Hb Hm (proj1 Hs)) as Heq.
  pose proof (linear_cov_symmetric n c (LinearController.W self) s Hs) as Hsym.
  destruct squash; [| by eexists _, _, _].
  rewrite (linear_squash _ _ _ _ _ _ Heq).
  rewrite (squash_sin_closed c) by (done || apply has_shape_mkmat || apply Hsym).
  cbn [mbind option_bind]. unfold squash_cross at 1.
  rewrite matmul_mkmat by lia. cbn [mbind option_bind].
  eexists _, _, _. split; [done |]. by apply squash_cov_symmetric.
Qed.

End LinearFacts.

(** ** The locality ratio *)

Section RatioFacts.

#[local] Arguments mkmat : simpl never.
#[local] Arguments mkvec : simpl never.

Lemma vec_eta (v : vec) : v = mkvec (length v) (get1 v).
Proof.
  apply vec_eq_nth; [by rewrite length_mkvec |].
  intros i Hi. by rewrite nth_mkvec.
Qed.

Lemma sum_n_diag n l (f g : nat → R) :
  l < n →
  sum_n n (λ a, f a * (if decide (a = l) then g a else 0))%R = (f l * g l)%R.
Proof.
  induction n as [|n IH]; intros Hl; simpl; [lia |].
  destruct (decide (n = l)) as [-> | Hne].
  - rewrite sum_n_zero; [lra |]. intros a Ha.
    rewrite decide_False by lia. lra.
  - rewrite IH by lia. lra.
Qed.

Lemma ratio_distance_mkmat n xf af Sf :
  0 < n →
  (xa ← bop Rminus (mkmat 1 n xf) (mkmat 1 n af);
   xaS ← matmul xa (diag (mkvec n Sf));
   xa' ← bop Rminus (mkmat 1 n xf) (mkmat 1 n af);
   matmul xaS (transpose xa'))
  = Some (mkmat 1 1 (λ i j,
      sum_n n (λ l, (xf i l - af i l) * Sf l * (xf j l - af j l))%R)).
Proof.
  intros Hn.
  rewrite !bop_same by lia. cbn [mbind option_bind].
  rewrite diag_mkvec, matmul_mkmat by lia. cbn [mbind option_bind].
  rewrite transpose_mkmat, matmul_mkmat by lia. f_equal.
  apply mkmat_ext. intros i j Hi Hj. apply sum_n_ext. intros l Hl.
  by rewrite (sum_n_diag n l (λ a, xf i a - af i a)%R Sf).
Qed.

Lemma compute_ratio_closed self n x :
  0 < n → has_shape 1 n x → has_shape 1 n (CombinedController.a self) →
  length (CombinedController.S self) = n →
  CombinedController.compute_ratio self x
  = Some [[ (1 / (CombinedController.distance n x (CombinedController.a self)
                    (CombinedController.S self) + 1) ^ 2)%R ]].
Proof.
  intros Hn Hx Ha HS. unfold CombinedController.compute_ratio.
  pose proof (ratio_distance_mkmat n (get2 x) (get2 (CombinedController.a self))
                (get1 (CombinedController.S self)) Hn) as Hd.
  rewrite <- HS, <- vec_eta, HS in Hd.
  rewrite <- (mat_eta 1 n x), <- (mat_eta 1 n (CombinedController.a self))
    in Hd by done.
  destruct (bop Rminus x _) as [xa|]; [|done]. cbn [mbind option_bind] in *.
  destruct (matmul xa _) as [xaS|]; [|done]. cbn [mbind option_bind] in *.
  rewrite Hd. cbn [mbind option_bind]. by rewrite smap_mkmat.
Qed.

Lemma distance_nonneg n x a S :
  (∀ i, i < n → (0 < get1 S i)%R) → (0 <= CombinedController.distance n x a S)%R.
Proof.
  intros HS. apply sum_n_nonneg. intros l Hl. specialize (HS l Hl).
  set (t := (get2 x 0 l - get2 a 0 l)%R).
  replace (t * get1 S l * t)%R with (get1 S l * (t * t))%R by ring.
  apply Rmult_le_pos; [lra | nra].
Qed.

Lemma distance_self n a S : CombinedController.distance n a a S = 0%R.
Proof. apply sum_n_zero. intros l Hl. lra. Qed.

(** C6. [compute_ratio x] is [1 / (1 + d)²], [d] being the product
    [(x - a)·diag(S)·(x - a)ᵀ]; it is 1 at [x = a] and, for positive trust
    scales, lies in (0, 1]. *)
Theorem C6_compute_ratio (self : CombinedController.t) (n : nat) (x : mat) :
  0 < n → has_shape 1 n x → has_shape 1 n (CombinedController.a self) →
  length (CombinedController.S self) = n →
  ∃ d,
    (xa ← bop Rminus x (CombinedController.a self);
     xaS ← matmul xa (diag (CombinedController.S self));
     matmul xaS (transpose xa)) = Some [[d]] ∧
    CombinedController.compute_ratio self x = Some [[ (1 / (1 + d) ^ 2)%R ]] ∧
    CombinedController.compute_ratio self (CombinedController.a self)
    = Some [[1%R]] ∧
    ((∀ i, i < n → (0 < get1 (CombinedController.S self) i)%R) →
     (0 < 1 / (1 + d) ^ 2 <= 1)%R).
Proof.
  intros Hn Hx Ha HS.
  exists (CombinedController.distance n x (CombinedController.a self) (CombinedController.S self)).
  split; [| split; [| split]].
  - pose proof (ratio_distance_mkmat n (get2 x)
                  (get2 (CombinedController.a self))
                  (get1 (CombinedController.S self)) Hn) as Hd.
    rewrite <- HS, <- vec_eta, HS in Hd.
    rewrite <- (mat_eta 1 n x), <- (mat_eta 1 n (CombinedController.a self))
      in Hd by done.
    destruct (bop Rminus x _) as [xa|]; [|done]. cbn [mbind option_bind] in *.
    by destruct (matmul xa _) as [xaS|].
  - rewrite (compute_ratio_closed self n) by done.
    by rewrite (Rplus_comm 1).
  - rewrite (compute_ratio_closed self n) by done.
    rewrite distance_self, Rplus_0_l, pow1. do 3 f_equal. lra.
  - intros Hpos.
    pose proof (distance_nonneg n x (CombinedController.a self) _ Hpos) as Hd.
    set (d := CombinedController.distance _ _ _ _) in *.
    assert (1 <= (1 + d) ^ 2)%R by nra.
    split.
    + apply Rdiv_lt_0_compat; lra.
    + unfold Rdiv. rewrite Rmult_1_l.
      replace 1%R with (/ 1)%R at 2 by apply Rinv_1.
      apply Rinv_le_contravar; lra.
Qed.

Lemma C6_compute_ratio_witness :
  ∃ d,
    CombinedController.compute_ratio Examples.combined2 [[1%R]]
    = Some [[ (1 / (1 + d) ^ 2)%R ]] ∧
    CombinedController.compute_ratio Examples.combined2
      (CombinedController.a Examples.combined2) = Some [[1%R]] ∧
    (0 < 1 / (1 + d) ^ 2 <= 1)%R.
Proof.
  destruct (C6_compute_ratio Examples.combined2 1 [[1%R]])
    as (d & _ & Hratio & Hcentre & Hrange).
  - lia.
  - split; [reflexivity | repeat constructor].
  - split; [reflexivity | repeat constructor].
  - reflexivity.
  - exists d. split; [exact Hratio |]. split; [exact Hcentre |].
    apply Hrange. intros i Hi. destruct i; [| lia].
    unfold get1. simpl. lra.
Defined.

End RatioFacts.

(** ** The combined controller in closed form *)

Section CombinedFacts.

#[local] Arguments mkmat : simpl never.
#[local] Arguments mkvec : simpl never.

Ltac mix_step :=
  first
    [ rewrite smap_mkmat
    | rewrite transpose_mkmat by lia
    | rewrite bop_same by lia
    | rewrite bop_one_mat by lia
    | rewrite bop_mat_one by lia
    | rewrite matmul_mkmat by lia ];
  cbn [mbind option_bind].

Lemma mix_mkmat n c ρ M1f S1f V1f M2f S2f V2f :
  0 < n → 0 < c →
  CombinedController.mix (mkmat 1 1 (λ _ _, ρ))
    (mkmat 1 c M1f, mkmat c c S1f, mkmat n c V1f)
    (mkmat 1 c M2f, mkmat c c S2f, mkmat n c V2f)
  = Some
      (mkmat 1 c (λ i j, ρ * M1f i j + (1 - ρ) * M2f i j)%R,
       mkmat c c (λ i j,
         ρ * S1f i j + (1 - ρ) * S2f i j
         + sum_n c (λ l,
             ρ * (M1f 0%nat l - (ρ * M1f 0%nat l + (1 - ρ) * M2f 0%nat l))
             * (M1f 0%nat l - (ρ * M1f 0%nat l + (1 - ρ) * M2f 0%nat l)))
         + sum_n c (λ l,
             (1 - ρ) * (M2f 0%nat l - (ρ * M1f 0%nat l + (1 - ρ) * M2f 0%nat l))
             * (M2f 0%nat l - (ρ * M1f 0%nat l + (1 - ρ) * M2f 0%nat l))))%R,
       mkmat n c (λ i j, ρ * V1f i j + (1 - ρ) * V2f i j)%R).
Proof.
  intros Hn Hc. unfold CombinedController.mix.
  by repeat mix_step.
Qed.

Lemma mix_closed n c ρ M1 S1 V1 M2 S2 V2 :
  0 < n → 0 < c →
  has_shape 1 c M1 → has_shape c c S1 → has_shape n c V1 →
  has_shape 1 c M2 → has_shape c c S2 → has_shape n c V2 →
  CombinedController.mix [[ρ]] (M1, S1, V1) (M2, S2, V2)
  = Some
      (mkmat 1 c (λ i j, ρ * get2 M1 i j + (1 - ρ) * get2 M2 i j)%R,
       mkmat c c (λ i j,
         ρ * get2 S1 i j + (1 - ρ) * get2 S2 i j
         + sum_n c (λ l,
             ρ * (get2 M1 0 l - (ρ * get2 M1 0 l + (1 - ρ) * get2 M2 0 l))
             * (get2 M1 0 l - (ρ * get2 M1 0 l + (1 - ρ) * get2 M2 0 l)))
         + sum_n c (λ l,
             (1 - ρ) * (get2 M2 0 l - (ρ * get2 M1 0 l + (1 - ρ) * get2 M2 0 l))
             * (get2 M2 0 l - (ρ * get2 M1 0 l + (1 - ρ) * get2 M2 0 l))))%R,
       mkmat n c (λ i j, ρ * get2 V1 i j + (1 - ρ) * get2 V2 i j)%R).
Proof.
  intros Hn Hc HM1 HS1 HV1 HM2 HS2 HV2.
  pose proof (mix_mkmat n c ρ (get2 M1) (get2 S1) (get2 V1)
                (get2 M2) (get2 S2) (get2 V2) Hn Hc) as Hmix.
  rewrite <- (mat_eta 1 c M1), <- (mat_eta c c S1), <- (mat_eta n c V1),
    <- (mat_eta 1 c M2), <- (mat_eta c c S2), <- (mat_eta n c V2) in Hmix
    by done.
  exact Hmix.
Qed.

(** What [compute_action] does once the ratio and the answers of the two
    sub-controllers are known. *)
Lemma combined_unfold gp σ self m s squash ρ out1 out2 :
  CombinedController.compute_ratio self m = Some ρ →
  LinearController.compute_action
    (CombinedController.linear_controller self) m s false = Some out1 →
  RbfController.compute_action gp σ
    (CombinedController.rbf_controller self) m s false = Some out2 →
  CombinedController.compute_action gp σ self m s squash
  = (CombinedController.set_r self (CombinedController.RatioTensor ρ),
     '(M, S0, V) ← CombinedController.mix ρ out1 out2;
     if squash then
       '(M, S', V2) ← squash_sin M S0 (CombinedController.max_action self);
       V ← matmul V V2;
       Some (M, S', V)
     else Some (M, S0, V)).
Proof.
  intros Hρ H1 H2. unfold CombinedController.compute_action.
  rewrite Hρ. cbn [CombinedController.set_r
    CombinedController.linear_controller CombinedController.rbf_controller
    CombinedController.r CombinedController.max_action].
  rewrite H1, H2. done.
Qed.

Lemma mix_cov_symmetric c ρ M1 M2 S1 S2 :
  symmetric c S1 → symmetric c S2 →
  symmetric c
    (mkmat c c (λ i j,
       ρ * get2 S1 i j + (1 - ρ) * get2 S2 i j
       + sum_n c (λ l,
           ρ * (get2 M1 0 l - (ρ * get2 M1 0 l + (1 - ρ) * get2 M2 0 l))
           * (get2 M1 0 l - (ρ * get2 M1 0 l + (1 - ρ) * get2 M2 0 l)))
       + sum_n c (λ l,
           (1 - ρ) * (get2 M2 0 l - (ρ * get2 M1 0 l + (1 - ρ) * get2 M2 0 l))
           * (get2 M2 0 l - (ρ * get2 M1 0 l + (1 - ρ) * get2 M2 0 l))))%R).
Proof.
  intros [H1 Hsym1] [H2 Hsym2]. split; [apply has_shape_mkmat |].
  intros i j Hi Hj. rewrite !get2_mkmat by done.
  by rewrite (Hsym1 i j), (Hsym2 i j).
Qed.

Lemma combined_symmetric gp σ self n c m s M1 S1 V1 M2 S2 V2 squash :
  0 < n → 0 < c →
  has_shape 1 n m → has_shape 1 n (CombinedController.a self) →
  length (CombinedController.S self) = n →
  LinearController.compute_action
    (CombinedController.linear_controller self) m s false
  = Some (M1, S1, V1) →
  RbfController.compute_action gp σ
    (CombinedController.rbf_controller self) m s false
  = Some (M2, S2, V2) →
  has_shape 1 c M1 → symmetric c S1 → has_shape n c V1 →
  has_shape 1 c M2 → symmetric c S2 → has_shape n c V2 →
  bound_ok c (CombinedController.max_action self) →
  ∃ M S V,
    (CombinedController.compute_action gp σ self m s squash).2
    = Some (M, S, V) ∧ symmetric c S.
Proof.
  intros Hn Hc Hm Ha HS H1 H2 HM1 HS1 HV1 HM2 HS2 HV2 Hok.
  rewrite (combined_unfold gp σ self m s squash _ _ _
             (compute_ratio_closed self n m Hn Hm Ha HS) H1 H2).
  cbn [snd].
  rewrite (mix_closed n c) by (done || apply HS1 || apply HS2).
  cbn [mbind option_bind].
  pose proof (mix_cov_symmetric c
    (1 / (CombinedController.distance n m (CombinedController.a self)
            (CombinedController.S self) + 1) ^ 2)%R M1 M2 S1 S2 HS1 HS2)
    as Hsym.
  destruct squash; [| by eexists _, _, _].
  rewrite (squash_sin_closed c) by (done || apply has_shape_mkmat || apply Hsym).
  cbn [mbind option_bind]. unfold squash_cross at 1.
  rewrite matmul_mkmat by lia. cbn [mbind option_bind].
  eexists _, _, _. split; [done |]. by apply squash_cov_symmetric.
Qed.

(** C8. For a symmetric covariance, [squash_sin] returns a symmetric
    covariance; so does the linear controller, squashing or not; and the
    combined controller returns a symmetric covariance whenever the
    covariances of its two sub-controllers are symmetric. *)
Theorem C8_symmetric_covariances
    (k : nat) (u su : mat) (bound : option action_bound)
    (lin : LinearController.t) (n c : nat) (m s : mat)
    (gp : RbfController.core) (σ : store) (self : CombinedController.t)
    (n' c' : nat) (m' s' M1 S1 V1 M2 S2 V2 : mat) :
  0 < k → has_shape 1 k u → symmetric k su → bound_ok k bound →
  0 < n → 0 < c →
  has_shape c n (LinearController.W lin) →
  has_shape 1 c (LinearController.b lin) →
  has_shape 1 n m → symmetric n s →
  bound_ok c (LinearController.max_action lin) →
  0 < n' → 0 < c' →
  has_shape 1 n' m' → has_shape 1 n' (CombinedController.a self) →
  length (CombinedController.S self) = n' →
  LinearController.compute_action
    (CombinedController.linear_controller self) m' s' false
  = Some (M1, S1, V1) →
  RbfController.compute_action gp σ
    (CombinedController.rbf_controller self) m' s' false
  = Some (M2, S2, V2) →
  has_shape 1 c' M1 → symmetric c' S1 → has_shape n' c' V1 →
  has_shape 1 c' M2 → symmetric c' S2 → has_shape n' c' V2 →
  bound_ok c' (CombinedController.max_action self) →
  (∃ M S C, squash_sin u su bound = Some (M, S, C) ∧ symmetric k S) ∧
  (∀ squash, ∃ M S V,
     LinearController.compute_action lin m s squash = Some (M, S, V) ∧
     symmetric c S) ∧
  (∀ squash, ∃ M S V,
     (CombinedController.compute_action gp σ self m' s' squash).2
     = Some (M, S, V) ∧ symmetric c' S).
Proof.
  intros Hk Hu Hsu Hbound Hn Hc HW Hb Hm Hs Hok Hn' Hc' Hm' Ha HS
    H1 H2 HM1 HS1 HV1 HM2 HS2 HV2 Hok'.
  split; [| split].
  - eexists _, _, _.
    split; [by apply (squash_sin_closed k); try apply Hsu |].
    by apply squash_cov_symmetric.
  - intros squash. by apply (linear_symmetric lin n c).
  - intros squash.
    by apply (combined_symmetric gp σ self n' c' m' s' M1 S1 V1 M2 S2 V2).
Qed.

Lemma C8_symmetric_covariances_witness :
  (∃ M S C, squash_sin [[0%R]] [[0%R]] None = Some (M, S, C) ∧ symmetric 1 S) ∧
  (∀ squash, ∃ M S V,
     LinearController.compute_action Examples.linear2 [[1%R]] [[0%R]] squash
     = Some (M, S, V) ∧ symmetric 2 S) ∧
  (∀ squash, ∃ M S V,
     (CombinedController.compute_action Examples.core2 Examples.store2
        Examples.combined2 [[1%R]] [[0%R]] squash).2
     = Some (M, S, V) ∧ symmetric 2 S).
Proof.
  eapply (C8_symmetric_covariances 1 [[0%R]] [[0%R]] None
            Examples.linear2 1 2 [[1%R]] [[0%R]]
            Examples.core2 Examples.store2 Examples.combined2
            1 2 [[1%R]] [[0%R]]).
  - lia.
  - split; [reflexivity | repeat constructor].
  - split; [split; [reflexivity | repeat constructor] |].
    intros i j Hi Hj. by replace i with 0 by lia; replace j with 0 by lia.
  - exact I.
  - lia.
  - lia.
  - split; [reflexivity | repeat constructor].
  - split; [reflexivity | repeat constructor].
  - split; [reflexivity | repeat constructor].
  - split; [split; [reflexivity | repeat constructor] |].
    intros i j Hi Hj. by replace i with 0 by lia; replace j with 0 by lia.
  - exact I.
  - lia.
  - lia.
  - split; [reflexivity | repeat constructor].
  - split; [reflexivity | repeat constructor].
  - reflexivity.
  - reflexivity.
  - reflexivity.
  - split; [reflexivity | repeat constructor].
  - split; [split; [reflexivity | repeat constructor] |].
    intros i j Hi Hj.
    destruct i as [|[|i]], j as [|[|j]]; try lia; vm_compute; lra.
  - split; [reflexivity | repeat constructor].
  - split; [reflexivity | repeat constructor].
  - split; [split; [reflexivity | repeat constructor] |].
    intros i j Hi Hj.
    destruct i as [|[|i]], j as [|[|j]]; try lia; vm_compute; lra.
  - split; [reflexivity | repeat constructor].
  - exact I.
Defined.

End CombinedFacts.

(** ** The RBF controller: the variance taken off the prediction *)

Section RbfFacts.

#[local] Arguments mkmat : simpl never.
#[local] Arguments mkvec : simpl never.

Lemma bop_shape_same f r c A B :
  0 < r → has_shape r c A → has_shape r c B →
  bop f A B = Some (mkmat r c (λ i j, f (get2 A i j) (get2 B i j))).
Proof.
  intros Hr HA HB.
  rewrite <- (bop_same f r c (get2 A) (get2 B)) by done.
  by rewrite <- (mat_eta r c A), <- (mat_eta r c B).
Qed.

Lemma has_shape_diag (v : vec) : has_shape (length v) (length v) (diag v).
Proof. apply has_shape_mkmat. Qed.

Lemma get2_diag (v : vec) i j :
  i < length v → j < length v →
  get2 (diag v) i j = if decide (i = j) then get1 v i else 0%R.
Proof. intros Hi Hj. unfold diag. by rewrite get2_mkmat. Qed.

Lemma get1_map (f : R → R) (v : vec) i :
  i < length v → get1 (map f v) i = f (get1 v i).
Proof.
  intros Hi. unfold get1.
  rewrite (nth_indep _ 0%R (f 0%R)) by (by rewrite length_map).
  apply map_nth.
Qed.

(** C5, as amended. The RBF controller takes [variance - 1e-6] off the
    diagonal of the predicted covariance, [variance] being the per-output
    variance that the regression core reports: a margin of [1e-6] stays on
    the diagonal.  With squashing, [squash_sin] is applied to the result. *)
Theorem C5_rbf_variance_removed (gp : RbfController.core) (σ : store)
    (self : RbfController.t) (c : nat) (m s : mat) (iK : tensor3)
    (beta Mp Sp Vp : mat) (var : vec) :
  0 < c →
  RbfController.calculate_factorizations gp σ self = Some (iK, beta) →
  RbfController.predict_given_factorizations gp σ self m s
    (map (smap (Rmult 0)) iK) beta = Some (Mp, Sp, Vp) →
  RbfController.variance gp σ self = Some var →
  has_shape c c Sp → length var = c →
  ∃ S,
    bop Rminus Sp (diag (map (λ x, (x - 1e-6)%R) var)) = Some S ∧
    has_shape c c S ∧
    (∀ i j, i < c → j < c →
       get2 S i j
       = (get2 Sp i j - (if decide (i = j) then get1 var i - 1e-6 else 0))%R) ∧
    RbfController.compute_action gp σ self m s false = Some (Mp, S, Vp) ∧
    RbfController.compute_action gp σ self m s true
    = ('(M, S', C) ← squash_sin Mp S (RbfController.max_action self);
       V ← matmul Vp C;
       Some (M, S', V)).
Proof.
  intros Hc Hfact Hpred Hvar HSp Hlen.
  assert (Hshape : has_shape c c (diag (map (λ x, (x - 1e-6)%R) var))).
  { pose proof (has_shape_diag (map (λ x, (x - 1e-6)%R) var)) as H.
    by rewrite length_map, Hlen in H. }
  eexists. split; [by apply (bop_shape_same Rminus c c) |].
  split; [apply has_shape_mkmat |]. split.
  - intros i j Hi Hj. rewrite get2_mkmat by done.
    rewrite get2_diag by (rewrite length_map; lia).
    case_decide; [| done]. by rewrite get1_map by lia.
  - unfold RbfController.compute_action.
    rewrite Hfact. cbn [mbind option_bind]. rewrite Hpred.
    cbn [mbind option_bind]. rewrite Hvar. cbn [mbind option_bind].
    rewrite (bop_shape_same Rminus c c) by done.
    by cbn [mbind option_bind].
Qed.

Lemma C5_rbf_variance_removed_witness :
  ∃ S,
    bop Rminus [[1%R; 0%R]; [0%R; 1%R]]
      (diag (map (λ x, (x - 1e-6)%R) [1e-4%R; 1e-4%R])) = Some S ∧
    RbfController.compute_action Examples.core2 Examples.store2 Examples.rbf2
      [[1%R]] [[0%R]] false
    = Some ([[0%R; 0%R]], S, [[0%R; 0%R]]).
Proof.
  destruct (C5_rbf_variance_removed Examples.core2 Examples.store2
              Examples.rbf2 2 [[1%R]] [[0%R]] [] []
              [[0%R; 0%R]] [[1%R; 0%R]; [0%R; 1%R]] [[0%R; 0%R]]
              [1e-4%R; 1e-4%R])
    as (S & HS & _ & _ & Hfalse & _).
  - lia.
  - reflexivity.
  - reflexivity.
  - reflexivity.
  - split; [reflexivity | repeat constructor].
  - reflexivity.
  - by exists S.
Defined.

(** C5 as stated does not hold: on a predicted covariance with unit
    diagonal and a noise floor of [1e-4], the controller returns
    [1 - (1e-4 - 1e-6)] on the diagonal, not [1 - 1e-4]. *)
Lemma C5_noise_floor_not_removed_exactly :
  ∃ Mp Sp Vp var M S V S_claimed,
    RbfController.predict_given_factorizations Examples.core2 Examples.store2
      Examples.rbf2 [[1%R]] [[0%R]] [] [] = Some (Mp, Sp, Vp) ∧
    RbfController.variance Examples.core2 Examples.store2 Examples.rbf2
    = Some var ∧
    var = [1e-4%R; 1e-4%R] ∧
    RbfController.compute_action Examples.core2 Examples.store2 Examples.rbf2
      [[1%R]] [[0%R]] false = Some (M, S, V) ∧
    bop Rminus Sp (diag var) = Some S_claimed ∧
    get2 S 0 0 = (1 - (1e-4 - 1e-6))%R ∧
    get2 S_claimed 0 0 = (1 - 1e-4)%R ∧
    get2 S 0 0 ≠ get2 S_claimed 0 0.
Proof.
  eexists _, _, _, _, _, _, _, _.
  split; [reflexivity |]. split; [reflexivity |]. split; [reflexivity |].
  split; [reflexivity |]. split; [reflexivity |].
  split; [vm_compute; lra |]. split; [vm_compute; lra |].
  vm_compute. lra.
Qed.

End RbfFacts.

(** ** The combined controller: mixture and stored ratio *)

Section MixtureFacts.

#[local] Arguments mkmat : simpl never.
#[local] Arguments mkvec : simpl never.

(** What the combined controller returns without squashing: the means
    and cross-covariances are mixed entry by entry; every entry of the
    covariance receives the weighted squared norms of the deviations of the
    component means. *)
Lemma combined_closed gp σ self n c m s M1 S1 V1 M2 S2 V2 :
  0 < n → 0 < c →
  has_shape 1 n m → has_shape 1 n (CombinedController.a self) →
  length (CombinedController.S self) = n →
  LinearController.compute_action
    (CombinedController.linear_controller self) m s false
  = Some (M1, S1, V1) →
  RbfController.compute_action gp σ
    (CombinedController.rbf_controller self) m s false
  = Some (M2, S2, V2) →
  has_shape 1 c M1 → has_shape c c S1 → has_shape n c V1 →
  has_shape 1 c M2 → has_shape c c S2 → has_shape n c V2 →
  let ρ := (1 / (CombinedController.distance n m (CombinedController.a self)
                   (CombinedController.S self) + 1) ^ 2)%R in
  let M := mkmat 1 c (λ i j, ρ * get2 M1 i j + (1 - ρ) * get2 M2 i j)%R in
  (CombinedController.compute_action gp σ self m s false).2
  = Some
      (M,
       mkmat c c (λ i j,
         ρ * get2 S1 i j + (1 - ρ) * get2 S2 i j
         + ρ * sum_n c (λ l, (get2 M1 0 l - get2 M 0 l) * (get2 M1 0 l - get2 M 0 l))
         + (1 - ρ)
           * sum_n c (λ l, (get2 M2 0 l - get2 M 0 l) * (get2 M2 0 l - get2 M 0 l)))%R,
       mkmat n c (λ i j, ρ * get2 V1 i j + (1 - ρ) * get2 V2 i j)%R).
Proof.
  intros Hn Hc Hm Ha HS H1 H2 HM1 HS1 HV1 HM2 HS2 HV2 ρ M.
  rewrite (combined_unfold gp σ self m s false _ _ _
             (compute_ratio_closed self n m Hn Hm Ha HS) H1 H2).
  cbn [snd]. rewrite (mix_closed n c) by done. cbn [mbind option_bind].
  do 3 f_equal. apply mkmat_ext. intros i j Hi Hj. fold ρ.
  rewrite <- !sum_n_mult_l. f_equal; [f_equal |].
  - apply sum_n_ext. intros l Hl. unfold M. rewrite get2_mkmat by lia. ring.
  - apply sum_n_ext. intros l Hl. unfold M. rewrite get2_mkmat by lia. ring.
Qed.

(** For a single control the covariance of the code is that of the
    mixture. *)
Lemma mixture_covariance_one_control ρ M1 M2 M S1 S2 :
  CombinedController.mixture_covariance 1 ρ M1 M2 M S1 S2
  = mkmat 1 1 (λ i j,
      ρ * get2 S1 i j + (1 - ρ) * get2 S2 i j
      + ρ * sum_n 1 (λ l, (get2 M1 0 l - get2 M 0 l) * (get2 M1 0 l - get2 M 0 l))
      + (1 - ρ)
        * sum_n 1 (λ l, (get2 M2 0 l - get2 M 0 l) * (get2 M2 0 l - get2 M 0 l)))%R.
Proof.
  unfold CombinedController.mixture_covariance. apply mkmat_ext.
  intros i j Hi Hj. replace i with 0 by lia. replace j with 0 by lia.
  simpl. ring.
Qed.

Lemma example_shape_1_1 (x : R) : has_shape 1 1 [[x]].
Proof. split; [reflexivity | repeat constructor]. Qed.

Lemma example_shape_1_2 (x y : R) : has_shape 1 2 [[x; y]].
Proof. split; [reflexivity | repeat constructor]. Qed.

Lemma example_shape_2_2 (x y z w : R) : has_shape 2 2 [[x; y]; [z; w]].
Proof. split; [reflexivity | repeat constructor]. Qed.

Lemma example_ratio :
  (1 / (CombinedController.distance 1 [[1%R]]
          (CombinedController.a Examples.combined2)
          (CombinedController.S Examples.combined2) + 1) ^ 2)%R
  = (1 / 4)%R.
Proof.
  unfold CombinedController.distance, get2, get1. simpl. lra.
Qed.

Lemma example_linear :
  LinearController.compute_action Examples.linear2 [[1%R]] [[0%R]] false
  = Some ([[(0 + 1 * 1 + 0)%R; (0 + 1 * 0 + 0)%R]],
          [[(0 + (0 + 1 * 0) * 1)%R; (0 + (0 + 1 * 0) * 0)%R];
           [(0 + (0 + 0 * 0) * 1)%R; (0 + (0 + 0 * 0) * 0)%R]],
          [[1%R; 0%R]]).
Proof. reflexivity. Qed.

Lemma example_rbf :
  RbfController.compute_action Examples.core2 Examples.store2 Examples.rbf2
    [[1%R]] [[0%R]] false
  = Some ([[0%R; 0%R]],
          [[(1 - (1e-4 - 1e-6))%R; (0 - 0)%R];
           [(0 - 0)%R; (1 - (1e-4 - 1e-6))%R]],
          [[0%R; 0%R]]).
Proof. reflexivity. Qed.

(** C2, on two controls. The mean and the cross-covariance are the
    mixtures [r·M1 + (1-r)·M2] and [r·V1 + (1-r)·V2], but the covariance is
    not the mixture covariance: [(M1 - M) @ transpose(M1 - M)] is the
    squared norm of a row, added to every entry, so that the returned
    covariance exceeds the mixture covariance by 3/16 both at the variance
    of the second control, whose two component means agree, and off the
    diagonal. *)
Theorem C2_mixture_on_two_controls :
  ∃ ρ M1 S1 V1 M2 S2 V2 M S V,
    CombinedController.compute_ratio Examples.combined2 [[1%R]] = Some [[ρ]] ∧
    LinearController.compute_action Examples.linear2 [[1%R]] [[0%R]] false
    = Some (M1, S1, V1) ∧
    RbfController.compute_action Examples.core2 Examples.store2 Examples.rbf2
      [[1%R]] [[0%R]] false = Some (M2, S2, V2) ∧
    (CombinedController.compute_action Examples.core2 Examples.store2
       Examples.combined2 [[1%R]] [[0%R]] false).2 = Some (M, S, V) ∧
    (∀ j, j < 2 →
       get2 M 0 j = (ρ * get2 M1 0 j + (1 - ρ) * get2 M2 0 j)%R) ∧
    (∀ j, j < 2 →
       get2 V 0 j = (ρ * get2 V1 0 j + (1 - ρ) * get2 V2 0 j)%R) ∧
    get2 M1 0 1 = get2 M2 0 1 ∧
    get2 S 1 1
    = (get2 (CombinedController.mixture_covariance 2 ρ M1 M2 M S1 S2) 1 1
       + 3 / 16)%R ∧
    get2 S 0 1
    = (get2 (CombinedController.mixture_covariance 2 ρ M1 M2 M S1 S2) 0 1
       + 3 / 16)%R.
Proof.
  pose proof (combined_closed Examples.core2 Examples.store2
                Examples.combined2 1 2 [[1%R]] [[0%R]] _ _ _ _ _ _
                ltac:(lia) ltac:(lia) (example_shape_1_1 _)
                (example_shape_1_1 _) eq_refl example_linear example_rbf
                (example_shape_1_2 _ _) (example_shape_2_2 _ _ _ _)
                (example_shape_1_2 _ _) (example_shape_1_2 _ _)
                (example_shape_2_2 _ _ _ _) (example_shape_1_2 _ _)) as Hc.
  cbv zeta in Hc.
  pose proof (compute_ratio_closed Examples.combined2 1 [[1%R]]
                ltac:(lia) (example_shape_1_1 _) (example_shape_1_1 _)
                eq_refl) as Hr.
  revert Hc Hr. generalize example_ratio.
  generalize (1 / (CombinedController.distance 1 [[1%R]]
                     (CombinedController.a Examples.combined2)
                     (CombinedController.S Examples.combined2) + 1) ^ 2)%R.
  intros ρ Hρ Hc Hr.
  eexists ρ, _, _, _, _, _, _, _, _, _.
  split; [exact Hr |]. split; [exact example_linear |].
  split; [exact example_rbf |]. split; [exact Hc |].
  split; [intros j Hj; by rewrite get2_mkmat by lia |].
  split; [intros j Hj; by rewrite get2_mkmat by lia |].
  split; [unfold get2; simpl; lra |].
  unfold CombinedController.mixture_covariance.
  rewrite !get2_mkmat by lia. unfold get2. simpl. subst ρ.
  split; lra.
Qed.

Ltac real_eval :=
  cbv - [Rplus Rminus Rmult Rdiv Rinv Ropp IZR pow exp sin cos].

Tactic Notation "real_eval" "in" hyp(H) :=
  cbv - [Rplus Rminus Rmult Rdiv Rinv Ropp IZR pow exp sin cos] in H.

Lemma compute_ratio_set_r self v x :
  CombinedController.compute_ratio (CombinedController.set_r self v) x
  = CombinedController.compute_ratio self x.
Proof. reflexivity. Qed.

(** C9, as amended. Every call of [compute_action] computes the ratio
    anew from the mean it is given and the trust-region parameters, and
    stores it in the attribute [r] (unless [compute_ratio] raises); every
    other attribute is left as it was, and neither the ratio nor the result
    depends on the value [r] held before the call. *)
Theorem C9_ratio_recomputed_and_stored (gp : RbfController.core) (σ : store)
    (self : CombinedController.t) (m s : mat) (squash : bool) :
  let after := (CombinedController.compute_action gp σ self m s squash).1 in
  CombinedController.r after
  = match CombinedController.compute_ratio self m with
    | Some ρ => CombinedController.RatioTensor ρ
    | None => CombinedController.r self
    end ∧
  CombinedController.rbf_controller after
  = CombinedController.rbf_controller self ∧
  CombinedController.linear_controller after
  = CombinedController.linear_controller self ∧
  CombinedController.a after = CombinedController.a self ∧
  CombinedController.S after = CombinedController.S self ∧
  CombinedController.max_action after = CombinedController.max_action self ∧
  ∀ v,
    CombinedController.compute_ratio (CombinedController.set_r self v) m
    = CombinedController.compute_ratio self m ∧
    (CombinedController.compute_action gp σ
       (CombinedController.set_r self v) m s squash).2
    = (CombinedController.compute_action gp σ self m s squash).2.
Proof.
  cbv zeta. unfold CombinedController.compute_action.
  destruct (CombinedController.compute_ratio self m) as [ρ|] eqn:Hρ.
  - repeat (split; [reflexivity |]).
    intros v. split; [exact Hρ |].
    by rewrite compute_ratio_set_r, Hρ.
  - repeat (split; [reflexivity |]).
    intros v. split; [exact Hρ |].
    by rewrite compute_ratio_set_r, Hρ.
Qed.

(** C9 as stated does not hold: the controller as constructed holds the
    integer 1 in [r]; after a call at the mean 1 it holds the tensor 1/4,
    and after a further call at the trust centre the tensor 1. *)
Lemma C9_ratio_is_stored :
  let first :=
    (CombinedController.compute_action Examples.core2 Examples.store2
       Examples.combined2 [[1%R]] [[0%R]] true).1 in
  let second :=
    (CombinedController.compute_action Examples.core2 Examples.store2
       first [[0%R]] [[0%R]] true).1 in
  CombinedController.r Examples.combined2 = CombinedController.PyInt 1 ∧
  (∃ ρ, CombinedController.r first = CombinedController.RatioTensor [[ρ]] ∧
        ρ = (1 / 4)%R) ∧
  (∃ ρ, CombinedController.r second = CombinedController.RatioTensor [[ρ]] ∧
        ρ = 1%R) ∧
  first ≠ Examples.combined2 ∧ second ≠ first.
Proof.
  cbv zeta.
  split; [reflexivity |].
  split; [eexists; split; [reflexivity | real_eval; lra] |].
  split; [eexists; split; [reflexivity | real_eval; lra] |].
  split.
  - intros H. apply (f_equal CombinedController.r) in H. discriminate H.
  - intros H. apply (f_equal CombinedController.r) in H.
    real_eval in H. injection H as H. lra.
Qed.

End MixtureFacts.

(** ** Linearisation of the RBF controller *)

Section LinearizeFacts.

#[local] Arguments mkmat : simpl never.
#[local] Arguments mkvec : simpl never.

Lemma item_mkmat f : item (mkmat 1 1 f) = Some (f 0 0).
Proof. reflexivity. Qed.

(** The kernel value of [linearize] for any number of state dimensions:
    the precision is the reciprocal of the lengthscales themselves. *)
Lemma exp_term_mkmat n kv vf tf :
  0 < n →
  RbfController.exp_term kv (mkvec n vf) (mkmat n 1 tf)
  = Some (kv * exp (-0.5 * sum_n n (λ l, tf l 0%nat * (1 / vf l) * tf l 0%nat)))%R.
Proof.
  intros Hn. unfold RbfController.exp_term.
  rewrite transpose_mkmat, map_mkvec, diag_mkvec by lia.
  rewrite matmul_mkmat by lia. cbn [mbind option_bind].
  rewrite matmul_mkmat by lia. cbn [mbind option_bind].
  rewrite item_mkmat. cbn [mbind option_bind].
  do 4 f_equal. apply sum_n_ext. intros l Hl.
  by rewrite (sum_n_diag n l (λ a, tf a 0) (λ a, 1 / vf a)%R).
Qed.

Lemma exp_term_closed n kv (var : vec) temp :
  0 < n → length var = n → has_shape n 1 temp →
  RbfController.exp_term kv var temp
  = Some (kv * exp (-0.5 * sum_n n (λ l,
            get2 temp l 0 * (1 / get1 var l) * get2 temp l 0)))%R.
Proof.
  intros Hn Hvar Htemp.
  rewrite <- (exp_term_mkmat n kv (get1 var) (get2 temp) Hn).
  by rewrite <- Hvar, <- vec_eta, Hvar, <- (mat_eta n 1 temp).
Qed.

(** [linearize] on the one-dimensional controller whose lengthscale is 2,
    about the point 1: one pair, built from the kernel value
    [exp (-0.5 * (1/2))]. *)
Lemma example_linearize_lengthscale_two :
  let e := (1 * exp (-0.5 * (0 + (0 + (1 - 0) * (1 / 2)) * (1 - 0))))%R in
  RbfController.linearize Examples.store1 Examples.rbf1 [[1%R]]
  = Some [(RbfController.WeightArray [[((0 + e * (0 + 1 / 2 * (1 - 0))) / 1)%R]],
           ((0 + (e - (0 + e * (0 + 1 / 2 * (1 - 0)) * 0))) / 1)%R)].
Proof. reflexivity. Qed.

(** C4, at lengthscale 2. For the centre 0, the point 1 and kernel
    variance 1, [linearize] computes the kernel value
    [exp (-0.5 * (1/2))]: the precision is [1 / lengthscale].  The Gaussian
    RBF with precision [1 / lengthscale²] is [exp (-0.5 * (1/4))], a
    different number. *)
Theorem C4_kernel_precision_at_lengthscale_two :
  ∃ var kv temp e,
    read_vec Examples.store1 2 = Some var ∧ var = [2%R] ∧
    read_scalar Examples.store1 0 = Some kv ∧ kv = 1%R ∧
    (d ← bop Rminus [[1%R]] (row_of [0%R]); reshape2 1 1 d) = Some temp ∧
    RbfController.exp_term kv var temp = Some e ∧
    e = exp (-0.5 * (1 / 2)) ∧
    RbfController.gaussian_rbf kv var [1%R] [0%R] = exp (-0.5 * (1 / 2 ^ 2)) ∧
    e ≠ RbfController.gaussian_rbf kv var [1%R] [0%R] ∧
    RbfController.linearize Examples.store1 Examples.rbf1 [[1%R]]
    = Some [(RbfController.WeightArray [[((0 + e * (0 + 1 / 2 * (1 - 0))) / 1)%R]],
             ((0 + (e - (0 + e * (0 + 1 / 2 * (1 - 0)) * 0))) / 1)%R)].
Proof.
  exists [2%R], 1%R, [[(1 - 0)%R]],
    (1 * exp (-0.5 * (0 + (0 + (1 - 0) * (1 / 2)) * (1 - 0))))%R.
  assert (Hcode : (1 * exp (-0.5 * (0 + (0 + (1 - 0) * (1 / 2)) * (1 - 0))))%R
                  = exp (-0.5 * (1 / 2))).
  { rewrite Rmult_1_l. f_equal. lra. }
  assert (Hspec : RbfController.gaussian_rbf 1 [2%R] [1%R] [0%R]
                  = exp (-0.5 * (1 / 2 ^ 2))).
  { unfold RbfController.gaussian_rbf, get1. simpl.
    rewrite Rmult_1_l. f_equal. lra. }
  split; [reflexivity |]. split; [reflexivity |]. split; [reflexivity |].
  split; [reflexivity |]. split; [reflexivity |]. split; [reflexivity |].
  split; [exact Hcode |]. split; [exact Hspec |].
  split; [| exact example_linearize_lengthscale_two].
  rewrite Hcode, Hspec. intros Heq. apply exp_inv in Heq. lra.
Qed.

(** With two models, the inner loop of the second starts from the
    collectors the first has left, where [own_pair] starts from zero. *)
Lemma linearize_two_models σ self loc m0 m1 :
  RbfController.models self = [m0; m1] →
  RbfController.linearize σ self loc
  = (centers0 ← read_mat σ (FakeGPR.data m0).1;
     acc0 ← RbfController.centers_loop σ (RbfController.num_dims self) m0 loc
              centers0 (0%R, None);
     pair0 ← RbfController.averaged (RbfController.num_datapoints self) acc0;
     centers1 ← read_mat σ (FakeGPR.data m1).1;
     acc1 ← RbfController.centers_loop σ (RbfController.num_dims self) m1 loc
              centers1 acc0;
     pair1 ← RbfController.averaged (RbfController.num_datapoints self) acc1;
     Some [pair0; pair1]).
Proof.
  intros Hmodels. unfold RbfController.linearize. rewrite Hmodels. simpl.
  destruct (read_mat σ (FakeGPR.data m0).1) as [centers0|]; [| done]. simpl.
  destruct (RbfController.centers_loop σ _ m0 loc centers0 _) as [acc0|];
    [| done].
  simpl. destruct (RbfController.averaged _ acc0) as [pair0|]; [| done].
  simpl.
  destruct (read_mat σ (FakeGPR.data m1).1) as [centers1|]; [| done]. simpl.
  destruct (RbfController.centers_loop σ _ m1 loc centers1 acc0) as [acc1|];
    [| done].
  simpl. by destruct (RbfController.averaged _ acc1) as [pair1|].
Qed.

(** C3, on two outputs. On the controller with one state, two controls
    and one pseudo-point, linearised about the point 1, the pair returned
    for the second output is not the pair computed from the pseudo-points
    of the second output alone: the collectors are not reset between the
    models, so that weight and bias of the second pair are the sums over
    both outputs, twice what the second output contributes. *)
Theorem C3_linearize_accumulates_over_outputs :
  ∃ second w0 b0 w1 b1 w b,
    RbfController.models Examples.rbf2 !! 1 = Some second ∧
    RbfController.linearize Examples.store2 Examples.rbf2 [[1%R]]
    = Some [(RbfController.WeightArray [[w0]], b0);
            (RbfController.WeightArray [[w1]], b1)] ∧
    RbfController.own_pair Examples.store2 Examples.rbf2 [[1%R]] second
    = Some (RbfController.WeightArray [[w]], b) ∧
    w1 = (2 * w)%R ∧ b1 = (2 * b)%R ∧ w1 ≠ w ∧ b1 ≠ b.
Proof.
  set (e := (1 * exp (-0.5 * (0 + (0 + (1 - 0) * (1 / 1)) * (1 - 0))))%R).
  set (d := (e * (0 + 1 / 1 * (1 - 0)))%R).
  exists (FakeGPR.mk 3 9 (3, 9) (FakeGPR.mk_kernel 8 6) 10),
    ((0 + d) / 1)%R, ((0 + (e - (0 + d * 0))) / 1)%R,
    ((0 + d + d) / 1)%R,
    ((0 + (e - (0 + d * 0)) + (e - (0 + d * 0))) / 1)%R,
    ((0 + d) / 1)%R, ((0 + (e - (0 + d * 0))) / 1)%R.
  split; [reflexivity |]. split; [reflexivity |]. split; [reflexivity |].
  assert (0 < e)%R as He.
  { unfold e. rewrite Rmult_1_l. apply exp_pos. }
  assert (d = e) as Hd by (unfold d; lra).
  rewrite Hd. clearbody e. clear d Hd.
  repeat split; lra.
Qed.

End LinearizeFacts.

(** ** Parameters: allocation, assignment and what they preserve *)

Section StoreFacts.

Lemma same_shape_refl v : same_shape v v = true.
Proof. destruct v; simpl; [done | |]; by apply bool_decide_eq_true. Qed.

Lemma same_shape_trans u v w :
  same_shape u v = true → same_shape v w = true → same_shape u w = true.
Proof.
  destruct u, v, w; simpl; try done; rewrite !bool_decide_eq_true.
  - congruence.
  - intros [? ?] [? ?]. split; congruence.
Qed.

Lemma keeps_shapes_refl σ : keeps_shapes σ σ.
Proof. intros l v Hl. exists v. by rewrite same_shape_refl. Qed.

Lemma keeps_shapes_trans σ1 σ2 σ3 :
  keeps_shapes σ1 σ2 → keeps_shapes σ2 σ3 → keeps_shapes σ1 σ3.
Proof.
  intros H12 H23 l v Hl.
  destruct (H12 l v Hl) as (v2 & Hl2 & Hs2).
  destruct (H23 l v2 Hl2) as (v3 & Hl3 & Hs3).
  exists v3. eauto using same_shape_trans.
Qed.

Lemma fresh_lookup (σ : store) : σ !! fresh (dom σ) = None.
Proof. apply not_elem_of_dom, is_fresh. Qed.

Lemma keeps_shapes_alloc (σ : store) v :
  keeps_shapes σ (<[fresh (dom σ) := v]> σ).
Proof.
  intros l u Hl. exists u. rewrite same_shape_refl. split; [| done].
  rewrite lookup_insert_ne; [done |].
  intros <-. by rewrite fresh_lookup in Hl.
Qed.

Lemma keeps_shapes_assign (σ σ' : store) l v :
  assign σ l v = Some σ' → keeps_shapes σ σ'.
Proof.
  unfold assign. intros H.
  destruct (σ !! l) as [old|] eqn:Hold; [| done]. simpl in H.
  destruct (same_shape old v) eqn:Hs; [| done]. simplify_eq.
  intros l' u Hl'. destruct (decide (l = l')) as [<- | Hne].
  - exists v. rewrite lookup_insert_eq. by simplify_eq.
  - exists u. rewrite lookup_insert_ne by done. by rewrite same_shape_refl.
Qed.

Lemma scalar_at_keeps σ σ' l :
  keeps_shapes σ σ' → scalar_at σ l → scalar_at σ' l.
Proof.
  intros Hk [x Hx]. destruct (Hk l _ Hx) as (v' & Hv' & Hs).
  destruct v'; try done. by eexists.
Qed.

Lemma read_mat_keeps σ σ' l A :
  keeps_shapes σ σ' → read_mat σ l = Some A →
  ∃ A', read_mat σ' l = Some A' ∧ nrows A' = nrows A ∧ ncols A' = ncols A.
Proof.
  unfold read_mat. intros Hk HA.
  destruct (σ !! l) as [[| |B]|] eqn:Hl; try done. simplify_eq.
  destruct (Hk l _ Hl) as (v' & Hv' & Hs). rewrite Hv'.
  destruct v' as [| |A']; try done. simpl in Hs.
  apply bool_decide_eq_true in Hs as [? ?]. by exists A'.
Qed.

(** *** Rules of [wp] *)

Lemma wp_run {A} (m : eff A) post st :
  wp m post st → ∃ a st', m st = (st', Some a) ∧ post a st'.
Proof.
  unfold wp. destruct (m st) as [st' [a|]]; [| done]. by exists a, st'.
Qed.

Lemma wp_mono {A} (m : eff A) (post post' : A → store * draws → Prop) st :
  (∀ a st', post a st' → post' a st') → wp m post st → wp m post' st.
Proof.
  unfold wp. intros H. destruct (m st) as [st' [a|]]; [apply H | done].
Qed.

Lemma wp_ret {A} (a : A) (post : A → store * draws → Prop) st :
  post a st → wp (mret a) post st.
Proof. done. Qed.

Lemma wp_bind {A B} (m : eff A) (f : A → eff B) post st :
  wp m (λ a st', wp (f a) post st') st → wp (m ≫= f) post st.
Proof.
  unfold wp, mbind, eff_mbind, eff_bind.
  by destruct (m st) as [st' [a|]].
Qed.

Lemma wp_new v (post : nat → store * draws → Prop) st :
  post (fresh (dom st.1)) (<[fresh (dom st.1) := v]> st.1, st.2) →
  wp (new v) post st.
Proof. done. Qed.

Lemma wp_assign l v old (post : unit → store * draws → Prop) st :
  st.1 !! l = Some old → same_shape old v = true →
  post () (<[l := v]> st.1, st.2) → wp (assign_param l v) post st.
Proof.
  intros Hold Hs Hpost. unfold wp, assign_param, assign.
  rewrite Hold. simpl. by rewrite Hs.
Qed.

Lemma wp_reading {A} (f : store → option A) a
    (post : A → store * draws → Prop) st :
  f st.1 = Some a → post a st → wp (reading f) post st.
Proof. intros Hf Hpost. unfold wp, reading. by rewrite Hf. Qed.

Lemma wp_of_option {A} (o : option A) a (post : A → store * draws → Prop) st :
  o = Some a → post a st → wp (of_option o) post st.
Proof. by intros -> Hpost. Qed.

Lemma wp_draw_mat r c (post : mat → store * draws → Prop) st :
  post (mkmat r c (λ i j, st.2 (i * c + j))) (st.1, λ n, st.2 (r * c + n)) →
  wp (draw_mat r c) post st.
Proof. done. Qed.

End StoreFacts.

(** ** Construction of the models: one shared input parameter *)

Section SharingFacts.

Lemma wp_new_kernel n st :
  wp (RbfController.new_kernel n)
    (λ k st', keeps_shapes st.1 st'.1 ∧ scalar_at st'.1 (FakeGPR.variance k))
    st.
Proof.
  unfold RbfController.new_kernel.
  apply wp_bind, wp_new. apply wp_bind, wp_new.
  eapply wp_bind, wp_reading.
  { unfold read_vec. simpl. by rewrite lookup_insert_eq. }
  apply wp_bind, wp_new. apply wp_ret. simpl.
  set (σ1 := <[fresh (dom st.1) := VScalar 1]> st.1).
  set (σ2 := <[fresh (dom σ1) := _]> σ1).
  assert (keeps_shapes σ1 (<[fresh (dom σ2) := VVec (mkvec n (λ _, 1%R))]> σ2))
    as H13.
  { eapply keeps_shapes_trans; apply keeps_shapes_alloc. }
  split.
  - eapply keeps_shapes_trans; [apply keeps_shapes_alloc | exact H13].
  - eapply scalar_at_keeps; [exact H13 |].
    exists 1%R. apply lookup_insert_eq.
Qed.

Lemma wp_FakeGPR_init data kernel X lvv st :
  wp (FakeGPR.init data kernel X lvv)
    (λ m st',
       keeps_shapes st.1 st'.1 ∧ FakeGPR.kernel m = kernel ∧
       FakeGPR.data m = (FakeGPR.X m, FakeGPR.Y m) ∧
       match X with
       | Some x => FakeGPR.X m = x
       | None =>
           st.1 !! FakeGPR.X m = None ∧
           ∃ A, read_mat st'.1 (FakeGPR.X m) = Some A ∧
                nrows A = nrows data.1 ∧ ncols A = ncols data.1
       end)
    st.
Proof.
  unfold FakeGPR.init.
  assert (Htail : ∀ x st1,
    wp (y ← new (VMat data.2);
        lv ← new (VScalar 1);
        _ ← assign_param lv (VScalar lvv);
        mret (FakeGPR.mk x y (x, y) kernel lv))
      (λ m st', keeps_shapes st1.1 st'.1 ∧ FakeGPR.kernel m = kernel ∧
                FakeGPR.data m = (FakeGPR.X m, FakeGPR.Y m) ∧
                FakeGPR.X m = x) st1).
  { intros x st1. apply wp_bind, wp_new. apply wp_bind, wp_new.
    eapply wp_bind, wp_assign; [apply lookup_insert_eq | done |].
    apply wp_ret. simpl. split; [| done].
    rewrite insert_insert_eq.
    eapply keeps_shapes_trans; apply keeps_shapes_alloc. }
  destruct X as [x|].
  - apply wp_bind, wp_ret. eapply wp_mono; [| apply Htail].
    intros m st'. tauto.
  - apply wp_bind, wp_new. eapply wp_mono; [| apply Htail].
    simpl. intros m st' (Hk & Hkernel & Hdata & HX).
    split; [| split; [done | split; [done |]]].
    + eapply keeps_shapes_trans; [apply keeps_shapes_alloc | exact Hk].
    + rewrite HX. split; [apply fresh_lookup |].
      apply (read_mat_keeps _ _ _ data.1 Hk).
      unfold read_mat. by rewrite lookup_insert_eq.
Qed.

Lemma shares_inputs_snoc models m x :
  RbfController.shares_inputs models x →
  FakeGPR.X m = x → FakeGPR.data m = (FakeGPR.X m, FakeGPR.Y m) →
  RbfController.shares_inputs (models ++ [m]) x.
Proof.
  intros Hs HX Hdata. apply Forall_app. split; [done |].
  apply Forall_singleton. split; [done |]. by rewrite Hdata, HX.
Qed.

Lemma Forall_scalar_at_keeps σ σ' (models : list FakeGPR.t) :
  keeps_shapes σ σ' →
  Forall (λ m, scalar_at σ (FakeGPR.variance (FakeGPR.kernel m))) models →
  Forall (λ m, scalar_at σ' (FakeGPR.variance (FakeGPR.kernel m))) models.
Proof.
  intros Hk Hv. eapply Forall_impl; [exact Hv |].
  intros m. by apply scalar_at_keeps.
Qed.

(** The passes of the loop after the first: every new model receives the
    inputs of the last model. *)
Lemma wp_create_models_tail data outputs : ∀ models st x,
  Forall (λ i, i ≠ 0) outputs → models ≠ [] →
  RbfController.shares_inputs models x →
  Forall (λ m, scalar_at st.1 (FakeGPR.variance (FakeGPR.kernel m))) models →
  wp (RbfController.create_models_loop data outputs models)
    (λ ms st',
       keeps_shapes st.1 st'.1 ∧ RbfController.shares_inputs ms x ∧
       Forall (λ m, scalar_at st'.1 (FakeGPR.variance (FakeGPR.kernel m))) ms ∧
       length ms = length models + length outputs)
    st.
Proof.
  induction outputs as [|i outputs IH]; intros models st x Hout Hne Hs Hv.
  - apply wp_ret. split; [apply keeps_shapes_refl |].
    split; [done |]. split; [done |]. simpl. lia.
  - simpl. inversion Hout as [|? ? Hi Hout']; subst.
    eapply wp_bind, wp_mono; [| apply wp_new_kernel].
    intros kernel st1 [Hk1 Hkv]. rewrite decide_False by done.
    destruct (last models) as [prev|] eqn:Hlast;
      [| by apply last_None in Hlast].
    assert (FakeGPR.X prev = x) as Hprev.
    { apply last_Some in Hlast as [l' ->].
      apply Forall_app in Hs as [_ Hs].
      by apply Forall_singleton in Hs as [? _]. }
    apply wp_bind. eapply wp_bind, wp_of_option; [done |]. apply wp_ret.
    eapply wp_bind, wp_mono; [| apply wp_FakeGPR_init].
    intros m st2 (Hk2 & Hkernel & Hdata & HX).
    eapply wp_mono; [| apply (IH (models ++ [m]) st2 x)].
    + intros ms st' (Hk3 & Hs' & Hv' & Hlen).
      split; [eauto using keeps_shapes_trans |].
      split; [done |]. split; [done |].
      rewrite Hlen, length_app. simpl. lia.
    + done.
    + by destruct models.
    + apply shares_inputs_snoc; [done | congruence | done].
    + apply Forall_app. split.
      * eapply Forall_scalar_at_keeps; [| exact Hv].
        eauto using keeps_shapes_trans.
      * apply Forall_singleton. rewrite Hkernel.
        by eapply scalar_at_keeps.
Qed.

Lemma Forall_seq_nonzero start len :
  0 < start → Forall (λ i, i ≠ 0) (seq start len).
Proof.
  intros Hs. apply Forall_forall. intros i Hi.
  apply list_elem_of_In, in_seq in Hi. lia.
Qed.

(** [create_models]: all models hold the inputs created for the first. *)
Lemma wp_create_models num_outputs data st :
  wp (RbfController.create_models num_outputs data)
    (λ ms st',
       keeps_shapes st.1 st'.1 ∧
       Forall (λ m, scalar_at st'.1 (FakeGPR.variance (FakeGPR.kernel m))) ms ∧
       length ms = num_outputs ∧
       ∃ x, RbfController.shares_inputs ms x ∧
            (ms ≠ [] →
             st.1 !! x = None ∧
             ∃ A, read_mat st'.1 x = Some A ∧
                  nrows A = nrows data.1 ∧ ncols A = ncols data.1))
    st.
Proof.
  unfold RbfController.create_models.
  destruct num_outputs as [|k].
  - apply wp_ret. split; [apply keeps_shapes_refl |].
    split; [done |]. split; [done |]. exists 0.
    split; [apply Forall_nil_2 | done].
  - simpl.
    eapply wp_bind, wp_mono; [| apply wp_new_kernel].
    intros kernel st1 [Hk1 Hkv].
    apply wp_bind, wp_ret.
    eapply wp_bind, wp_mono; [| apply wp_FakeGPR_init].
    intros m st2 (Hk2 & Hkernel & Hdata & Hfresh & A & HA & Hr & Hc).
    eapply wp_mono;
      [| apply (wp_create_models_tail data (seq 1 k) [m] st2 (FakeGPR.X m))].
    + intros ms st' (Hk3 & Hs' & Hv' & Hlen).
      split; [eauto using keeps_shapes_trans |].
      split; [done |]. split; [by rewrite Hlen, length_seq |].
      exists (FakeGPR.X m). split; [done |]. intros _. split.
      * destruct (st.1 !! FakeGPR.X m) as [v|] eqn:Hl; [| done].
        destruct (Hk1 _ _ Hl) as (v' & Hv1 & _).
        by rewrite Hfresh in Hv1.
      * destruct (read_mat_keeps _ _ _ _ Hk3 HA) as (A' & HA' & Hr' & Hc').
        exists A'. split; [done |]. by rewrite Hr', Hc'.
    + apply Forall_seq_nonzero. lia.
    + done.
    + apply Forall_singleton. by rewrite Hdata.
    + apply Forall_singleton. rewrite Hkernel. by eapply scalar_at_keeps.
Qed.

Lemma wp_fix_kernel_variance ms : ∀ st,
  Forall (λ m, scalar_at st.1 (FakeGPR.variance (FakeGPR.kernel m))) ms →
  wp (RbfController.fix_kernel_variance ms)
    (λ _ st', keeps_shapes st.1 st'.1) st.
Proof.
  induction ms as [|m ms IH]; intros st Hv.
  - apply wp_ret, keeps_shapes_refl.
  - simpl. inversion Hv as [|? ? [x Hx] Hv']; subst.
    eapply wp_bind, wp_assign; [exact Hx | done |].
    assert (keeps_shapes st.1
              (<[FakeGPR.variance (FakeGPR.kernel m) := VScalar 1]> st.1))
      as Hk.
    { apply (keeps_shapes_assign _ _ (FakeGPR.variance (FakeGPR.kernel m))
               (VScalar 1)).
      unfold assign. by rewrite Hx. }
    eapply wp_mono; [| apply IH].
    + intros [] st' Hk'. simpl in Hk'. eauto using keeps_shapes_trans.
    + simpl. by eapply Forall_scalar_at_keeps.
Qed.

(** The constructor returns, and all models of the controller it builds
    hold one input parameter, created by the constructor. *)
Lemma wp_init state_dim control_dim num_basis_functions max_action st :
  wp (RbfController.init state_dim control_dim num_basis_functions max_action)
    (λ self st',
       length (RbfController.models self) = RbfController.num_outputs self ∧
       RbfController.max_action self = max_action ∧
       ∃ x, RbfController.shares_inputs (RbfController.models self) x ∧
            (RbfController.models self ≠ [] →
             st.1 !! x = None ∧
             ∃ A, read_mat st'.1 x = Some A ∧
                  nrows A = num_basis_functions ∧
                  ncols A = ncols (mkmat num_basis_functions state_dim
                                     (λ i j, st.2 (i * state_dim + j)))))
    st.
Proof.
  unfold RbfController.init, RbfController.MGPR_init.
  apply wp_bind, wp_draw_mat. apply wp_bind, wp_draw_mat.
  apply wp_bind, wp_bind.
  eapply wp_mono; [| apply wp_create_models].
  intros ms st1 (Hk1 & Hv & Hlen & x & Hs & Hx).
  apply wp_ret.
  eapply wp_bind, wp_mono; [| by apply wp_fix_kernel_variance].
  intros [] st2 Hk2. apply wp_ret. simpl in *.
  split; [done |]. split; [done |].
  exists x. split; [done |]. intros Hne.
  destruct (Hx Hne) as (Hfresh & A & HA & Hr & Hc).
  split; [done |].
  destruct (read_mat_keeps _ _ _ _ Hk2 HA) as (A' & HA' & Hr' & Hc').
  exists A'. split; [done |].
  rewrite Hr', Hr, Hc', Hc. by rewrite nrows_mkmat.
Qed.

End SharingFacts.

(** ** Randomisation assigns in place *)

Section RandomizeFacts.

Variable admissible : vec → bool.

Lemma keeps_ret {A} (a : A) : keeps (mret a : eff A).
Proof. intros st. apply keeps_shapes_refl. Qed.

Lemma keeps_raise {A} : keeps (raise : eff A).
Proof. intros st. apply keeps_shapes_refl. Qed.

Lemma keeps_bind {A B} (m : eff A) (f : A → eff B) :
  keeps m → (∀ a, keeps (f a)) → keeps (m ≫= f).
Proof.
  intros Hm Hf st. unfold mbind, eff_mbind, eff_bind.
  specialize (Hm st). destruct (m st) as [st' [a|]]; [| done].
  eapply keeps_shapes_trans; [exact Hm | apply Hf].
Qed.

Lemma keeps_reading {A} (f : store → option A) : keeps (reading f).
Proof. intros st. apply keeps_shapes_refl. Qed.

Lemma keeps_of_option {A} (o : option A) : keeps (of_option o).
Proof. intros st. apply keeps_shapes_refl. Qed.

Lemma keeps_draw_mat r c : keeps (draw_mat r c).
Proof. intros st. apply keeps_shapes_refl. Qed.

Lemma keeps_draw_vec n : keeps (draw_vec n).
Proof. intros st. apply keeps_shapes_refl. Qed.

Lemma keeps_assign_param l v : keeps (assign_param l v).
Proof.
  intros st. unfold assign_param.
  destruct (assign st.1 l v) as [σ|] eqn:Hassign; simpl.
  - by eapply keeps_shapes_assign.
  - apply keeps_shapes_refl.
Qed.

Lemma keeps_randomize_model max_action m :
  keeps (RbfController.randomize_model admissible max_action m).
Proof.
  unfold RbfController.randomize_model.
  repeat first
    [ apply keeps_bind; [| intros ?]
    | apply keeps_reading | apply keeps_draw_mat | apply keeps_draw_vec
    | apply keeps_of_option | apply keeps_assign_param ].
  destruct (admissible _); [apply keeps_assign_param | apply keeps_raise].
Qed.

Lemma keeps_randomize_loop max_action ms :
  keeps (RbfController.randomize_loop admissible max_action ms).
Proof.
  induction ms as [|m ms IH]; simpl; [apply keeps_ret |].
  apply keeps_bind; [apply keeps_randomize_model | by intros []].
Qed.

Lemma keeps_randomize self : keeps (RbfController.randomize admissible self).
Proof. apply keeps_randomize_loop. Qed.

(** The controller of [Examples] is the one the constructor builds. *)
Lemma example_rbf2_constructed :
  RbfController.init 1 2 1 None Examples.start
  = ((Examples.store2, λ _, 0%R), Some Examples.rbf2).
Proof. vm_compute. reflexivity. Qed.

Lemma example_rbf1_constructed :
  ∃ σ,
    RbfController.init 1 1 1 None Examples.start
    = ((σ, λ _, 0%R), Some Examples.rbf1) ∧
    assign σ 2 (VVec [2%R]) = Some Examples.store1.
Proof. eexists. split; vm_compute; reflexivity. Qed.

Lemma example_combined2_constructed :
  CombinedController.init 1 2 1 None None (Some [[1%R]; [0%R]]) Examples.start
  = ((Examples.store2, λ _, 0%R), Some Examples.combined2).
Proof. vm_compute. reflexivity. Qed.

(** C10. The constructor returns a controller all of whose models hold
    one and the same input parameter [x], which the constructor created
    for the first model: the later models are handed that parameter, not a
    copy.  [randomize] assigns to it in place, so that, whether it returns
    or raises, all models still read the same inputs afterwards. *)
Theorem C10_shared_pseudo_inputs (state_dim control_dim num_basis_functions : nat)
    (max_action : option action_bound) (st : store * draws) :
  ∃ self st1 x,
    RbfController.init state_dim control_dim num_basis_functions max_action st
    = (st1, Some self) ∧
    length (RbfController.models self) = RbfController.num_outputs self ∧
    (∀ m, m ∈ RbfController.models self →
       FakeGPR.X m = x ∧ (FakeGPR.data m).1 = x) ∧
    (RbfController.models self ≠ [] →
     st.1 !! x = None ∧
     ∃ A, read_mat st1.1 x = Some A ∧ nrows A = num_basis_functions) ∧
    ∀ st2 A,
      read_mat st2.1 x = Some A →
      ∃ A',
        (∀ m, m ∈ RbfController.models self →
           read_mat (RbfController.randomize admissible self st2).1.1
             (FakeGPR.X m) = Some A') ∧
        nrows A' = nrows A ∧ ncols A' = ncols A.
Proof.
  destruct (wp_run _ _ _
              (wp_init state_dim control_dim num_basis_functions max_action st))
    as (self & st1 & Hinit & Hlen & _ & x & Hshare & Hx).
  exists self, st1, x.
  assert (Hall : ∀ m, m ∈ RbfController.models self →
                   FakeGPR.X m = x ∧ (FakeGPR.data m).1 = x).
  { intros m Hm. unfold RbfController.shares_inputs in Hshare.
    rewrite Forall_forall in Hshare.
    destruct (Hshare m Hm) as [HX Hdata]. by rewrite Hdata. }
  split; [done |]. split; [done |]. split; [done |]. split.
  - intros Hne. destruct (Hx Hne) as (Hfresh & A & HA & Hr & _). eauto.
  - intros st2 A HA.
    destruct (read_mat_keeps _ _ _ _ (keeps_randomize self st2) HA)
      as (A' & HA' & Hr & Hc).
    exists A'. split; [| done].
    intros m Hm. by destruct (Hall m Hm) as [-> _].
Qed.

End RandomizeFacts.

(** ** More on the squashing transform *)

Section SquashMore.

#[local] Arguments mkmat : simpl never.
#[local] Arguments mkvec : simpl never.

(** The input/output covariance of [squash_sin] is diagonal, with
    [max_action_i * exp (- s_ii / 2) * cos m_i] on the diagonal, also for a
    single control. *)
Theorem squash_sin_cross_covariance (k : nat) (m s : mat)
    (max_action : option action_bound) :
  0 < k → has_shape 1 k m → has_shape k k s → bound_ok k max_action →
  ∃ M S C,
    squash_sin m s max_action = Some (M, S, C) ∧ has_shape k k C ∧
    ∀ i j, i < k → j < k →
      get2 C i j
      = if decide (i = j)
        then (bound_at max_action i * exp (- get2 s i i / 2)
              * cos (get2 m 0 i))%R
        else 0%R.
Proof.
  intros Hk Hm Hs Hok. eexists _, _, _.
  split; [by apply (squash_sin_closed k) |].
  split; [apply has_shape_mkmat |].
  intros i j Hi Hj. unfold squash_cross. rewrite get2_mkmat by done.
  case_decide; [subst j; ring | ring].
Qed.

Lemma squash_sin_cross_covariance_witness :
  ∃ M S C,
    squash_sin [[0%R]] [[0%R]] None = Some (M, S, C) ∧ has_shape 1 1 C.
Proof.
  destruct (squash_sin_cross_covariance 1 [[0%R]] [[0%R]] None)
    as (M & S & C & H & HC & _).
  - lia.
  - split; [reflexivity | repeat constructor].
  - split; [reflexivity | repeat constructor].
  - exact I.
  - by exists M, S, C.
Defined.

(** For the zero covariance, a deterministic control, [squash_sin] returns
    the mean [max_action_i * sin m_i] and the zero covariance. *)
Theorem squash_sin_zero_covariance (k : nat) (m : mat)
    (max_action : option action_bound) :
  0 < k → has_shape 1 k m → bound_ok k max_action →
  ∃ M C,
    squash_sin m (mkmat k k (λ _ _, 0%R)) max_action
    = Some (M, mkmat k k (λ _ _, 0%R), C) ∧
    ∀ i, i < k →
      get2 M 0 i = (bound_at max_action i * sin (get2 m 0 i))%R ∧
      get2 C i i = (bound_at max_action i * cos (get2 m 0 i))%R.
Proof.
  intros Hk Hm Hok.
  rewrite (squash_sin_closed k) by (done || apply has_shape_mkmat).
  assert (Hexp0 : ∀ x, x = 0%R → exp x = 1%R) by (intros x ->; apply exp_0).
  eexists _, _. split.
  - do 2 f_equal. f_equal. unfold squash_cov. apply mkmat_ext.
    intros i j Hi Hj. rewrite !get2_mkmat by done.
    rewrite !Hexp0 by lra. lra.
  - intros i Hi. unfold squash_mean, squash_cross.
    rewrite !get2_mkmat by lia. rewrite decide_True by done.
    rewrite !Hexp0 by lra. lra.
Qed.

Lemma squash_sin_zero_covariance_witness :
  ∃ M C,
    squash_sin [[0%R]] (mkmat 1 1 (λ _ _, 0%R)) None
    = Some (M, mkmat 1 1 (λ _ _, 0%R), C).
Proof.
  destruct (squash_sin_zero_covariance 1 [[0%R]] None) as (M & C & H & _).
  - lia.
  - split; [reflexivity | repeat constructor].
  - exact I.
  - by exists M, C.
Defined.

(** The variances [squash_sin] returns lie between 0 and
    [max_action_i² / 2] when the input variances are not negative. *)
Theorem squash_sin_variance_range (k : nat) (m s : mat)
    (max_action : option action_bound) :
  0 < k → has_shape 1 k m → has_shape k k s → bound_ok k max_action →
  ∃ M S C,
    squash_sin m s max_action = Some (M, S, C) ∧
    ∀ i, i < k → (0 <= get2 s i i)%R →
      (0 <= get2 S i i <= bound_at max_action i ^ 2 / 2)%R.
Proof.
  intros Hk Hm Hs Hok. eexists _, _, _.
  split; [by apply (squash_sin_closed k) |].
  intros i Hi Hpos. unfold squash_cov. rewrite get2_mkmat by done.
  set (b := bound_at max_action i). set (v := get2 s i i) in *.
  set (x := get2 m 0 i).
  replace (- (v + v) / 2 + v)%R with 0%R by lra.
  replace (- (v + v) / 2 - v)%R with (- v + - v)%R by lra.
  replace (- (v + v) / 2)%R with (- v)%R by lra.
  replace (x - x)%R with 0%R by lra.
  rewrite exp_plus, exp_0, cos_0.
  pose proof (exp_pos (- v)) as Hu.
  pose proof (exp_nonpos_le_1 (- v) ltac:(lra)) as Hu1.
  pose proof (COS_bound (x + x)) as [Hc1 Hc2].
  set (u := exp (- v)) in *. set (c := cos (x + x)) in *.
  assert (0 <= (1 - u) * (1 + u * c))%R as Hlo.
  { apply Rmult_le_pos; [lra | nra]. }
  assert (c * (1 - u) <= 1)%R as Hc by nra.
  assert (u * (c * (1 - u) - 1) <= 0)%R as Hcu by nra.
  assert ((1 - u) * (1 + u * c) <= 1)%R as Hhi by lra.
  assert (0 <= b * b)%R as Hb by nra.
  replace (b * b * ((1 - u) * 1 - (u * u - u) * c) / 2)%R
    with (b * b * ((1 - u) * (1 + u * c)) / 2)%R by lra.
  split; [| simpl]; nra.
Qed.

Lemma squash_sin_variance_range_witness :
  ∃ M S C,
    squash_sin [[0%R]] [[1%R]] None = Some (M, S, C) ∧
    (0 <= get2 S 0 0 <= bound_at None 0 ^ 2 / 2)%R.
Proof.
  destruct (squash_sin_variance_range 1 [[0%R]] [[1%R]] None)
    as (M & S & C & H & Hrange).
  - lia.
  - split; [reflexivity | repeat constructor].
  - split; [reflexivity | repeat constructor].
  - exact I.
  - exists M, S, C. split; [exact H |].
    apply Hrange; [lia |]. unfold get2. simpl. lra.
Defined.

Lemma bdim_none a b : a ≠ b → a ≠ 1 → b ≠ 1 → bdim a b = None.
Proof. intros. unfold bdim. by rewrite !decide_False. Qed.

Lemma bop_mkmat_none f r1 c1 r2 c2 g h :
  0 < r1 → 0 < r2 → bdim c1 c2 = None →
  bop f (mkmat r1 c1 g) (mkmat r2 c2 h) = None.
Proof.
  intros Hr1 Hr2 Hc. unfold bop.
  rewrite !ncols_mkmat, Hc by done.
  destruct (bdim (nrows _) (nrows _)); reflexivity.
Qed.

(** A covariance whose size is neither that of the mean nor 1 is
    rejected: [squash_sin] raises. *)
Theorem squash_sin_size_mismatch (k r : nat) (m s : mat)
    (max_action : option action_bound) :
  0 < k → 0 < r → k ≠ r → k ≠ 1 → r ≠ 1 →
  has_shape 1 k m → has_shape r r s → bound_ok k max_action →
  squash_sin m s max_action = None.
Proof.
  intros Hk Hr Hkr Hk1 Hr1 Hm Hs Hok. unfold squash_sin.
  rewrite (has_shape_ncols 1 k m) by (done || lia).
  rewrite scale_ones_ok by done. cbn [mbind option_bind].
  unfold diag_part.
  rewrite (has_shape_nrows r r s), (has_shape_ncols r r s), Nat.min_id by done.
  rewrite map_mkvec, row_of_mkvec.
  by rewrite (bop_mkmat_none Rmult 1 k 1 r) by (lia || by apply bdim_none).
Qed.

Lemma squash_sin_size_mismatch_witness :
  squash_sin [[0%R; 0%R]]
    [[0%R; 0%R; 0%R]; [0%R; 0%R; 0%R]; [0%R; 0%R; 0%R]] None = None.
Proof.
  apply (squash_sin_size_mismatch 2 3); try lia.
  - split; [reflexivity | repeat constructor].
  - split; [reflexivity | repeat constructor].
  - exact I.
Defined.

End SquashMore.

(** ** The linear controller: dimensions and randomisation *)

Section LinearMore.

#[local] Arguments mkmat : simpl never.
#[local] Arguments mkvec : simpl never.

Lemma matmul_none A B : ncols A ≠ nrows B → matmul A B = None.
Proof. intros H. unfold matmul. by rewrite decide_False. Qed.

(** A mean whose dimension is not the state dimension of [W] is rejected:
    [compute_action] raises, squashing or not. *)
Theorem linear_state_dimension_mismatch (self : LinearController.t)
    (n n' c : nat) (m s : mat) (squash : bool) :
  0 < c → n' ≠ n →
  has_shape c n (LinearController.W self) → has_shape 1 n' m →
  LinearController.compute_action self m s squash = None.
Proof.
  intros Hc Hne HW Hm. unfold LinearController.compute_action.
  rewrite (matmul_none m (transpose (LinearController.W self)));
    [reflexivity |].
  rewrite (has_shape_ncols 1 n' m) by (done || lia).
  unfold transpose. rewrite nrows_mkmat.
  by rewrite (has_shape_ncols c n) by done.
Qed.

Lemma linear_state_dimension_mismatch_witness :
  LinearController.compute_action Examples.linear2 [[1%R; 1%R]]
    [[0%R; 0%R]; [0%R; 0%R]] true = None.
Proof.
  apply (linear_state_dimension_mismatch Examples.linear2 1 2 2).
  - lia.
  - lia.
  - split; [reflexivity | repeat constructor].
  - split; [reflexivity | repeat constructor].
Defined.

(** On well-shaped arguments [compute_action] returns, squashing or not. *)
Lemma linear_returns self n c m s squash :
  0 < n → 0 < c →
  has_shape c n (LinearController.W self) →
  has_shape 1 c (LinearController.b self) →
  has_shape 1 n m → has_shape n n s →
  bound_ok c (LinearController.max_action self) →
  ∃ M S V, LinearController.compute_action self m s squash = Some (M, S, V).
Proof.
  intros Hn Hc HW Hb Hm Hs Hok.
  pose proof (linear_closed self n c m s Hn Hc HW Hb Hm Hs) as Heq.
  destruct squash; [| by eexists _, _, _].
  rewrite (linear_squash _ _ _ _ _ _ Heq).
  rewrite (squash_sin_closed c) by (done || apply has_shape_mkmat).
  cbn [mbind option_bind]. unfold squash_cross at 1.
  rewrite matmul_mkmat by lia. cbn [mbind option_bind].
  by eexists _, _, _.
Qed.

Lemma ncols_smap f A : ncols (smap f A) = ncols A.
Proof. destruct A as [|row A]; simpl; [done | apply length_map]. Qed.


Lemma ncols_mkmat_of A f : ncols (mkmat (nrows A) (ncols A) f) = ncols A.
Proof.
  destruct A as [|row A]; [done |]. apply ncols_mkmat. simpl. lia.
Qed.

Lemma wp_redraw P (post : mat → store * draws → Prop) st :
  post (mkmat (nrows P) (ncols P)
          (λ i j, (0 + 1 * st.2 (i * ncols P + j)%nat)%R))
       (st.1, λ n, st.2 (nrows P * ncols P + n)) →
  wp (LinearControllerRandomize.redraw P) post st.
Proof.
  intros Hpost. unfold LinearControllerRandomize.redraw.
  apply wp_bind, wp_draw_mat. rewrite smap_mkmat.
  assert (same_shape (VMat P)
            (VMat (mkmat (nrows P) (ncols P)
                     (λ i j, (0 + 1 * st.2 (i * ncols P + j)%nat)%R))) = true)
    as ->.
  { simpl. apply bool_decide_eq_true.
    by rewrite nrows_mkmat, ncols_mkmat_of. }
  by apply wp_ret.
Qed.

(** [randomize] of the linear controller always returns: it redraws [W]
    from the next draws and [b] from those after them, keeps their shapes
    and [max_action] and touches no parameter of the store; the controller
    it leaves still answers [compute_action]. *)
Theorem linear_randomize (self : LinearController.t) (n c : nat)
    (m s : mat) (squash : bool) (st : store * draws) :
  0 < n → 0 < c →
  has_shape c n (LinearController.W self) →
  has_shape 1 c (LinearController.b self) →
  has_shape 1 n m → has_shape n n s →
  bound_ok c (LinearController.max_action self) →
  ∃ self' g',
    LinearControllerRandomize.randomize self st = ((st.1, g'), Some self') ∧
    (∀ k, g' k = st.2 (c * n + (1 * c + k))) ∧
    has_shape c n (LinearController.W self') ∧
    has_shape 1 c (LinearController.b self') ∧
    LinearController.max_action self' = LinearController.max_action self ∧
    (∀ i j, i < c → j < n →
       get2 (LinearController.W self') i j = (0 + 1 * st.2 (i * n + j)%nat)%R) ∧
    (∀ j, j < c →
       get2 (LinearController.b self') 0 j = (0 + 1 * st.2 (c * n + j)%nat)%R) ∧
    ∃ M S V, LinearController.compute_action self' m s squash = Some (M, S, V).
Proof.
  intros Hn Hc HW Hb Hm Hs Hok.
  assert (wp (LinearControllerRandomize.randomize self)
            (λ self' st',
               st' = (st.1, λ k, st.2 (c * n + (1 * c + k))) ∧
               self' = LinearController.mk
                 (mkmat c n (λ i j, (0 + 1 * st.2 (i * n + j)%nat)%R))
                 (mkmat 1 c (λ i j, (0 + 1 * st.2 (c * n + (i * c + j))%nat)%R))
                 (LinearController.max_action self)) st) as Hwp.
  { unfold LinearControllerRandomize.randomize.
    apply wp_bind, wp_redraw. apply wp_bind, wp_redraw. apply wp_ret.
    rewrite (has_shape_nrows c n), (has_shape_ncols c n) by done.
    rewrite (has_shape_nrows 1 c), (has_shape_ncols 1 c) by (done || lia).
    done. }
  apply wp_run in Hwp as (self' & st' & Hrun & -> & ->).
  eexists _, _. split; [exact Hrun |]. split; [done |].
  cbn [LinearController.W LinearController.b LinearController.max_action].
  split; [apply has_shape_mkmat |]. split; [apply has_shape_mkmat |].
  split; [done |].
  split; [intros i j Hi Hj; by rewrite get2_mkmat |].
  split; [intros j Hj; by rewrite get2_mkmat by lia |].
  apply (linear_returns _ n c); try done; apply has_shape_mkmat.
Qed.

Lemma linear_randomize_witness :
  ∃ self' g',
    LinearControllerRandomize.randomize Examples.linear2 Examples.start
    = ((Examples.start.1, g'), Some self') ∧
    ∃ M S V,
      LinearController.compute_action self' [[1%R]] [[0%R]] true
      = Some (M, S, V).
Proof.
  destruct (linear_randomize Examples.linear2 1 2 [[1%R]] [[0%R]] true
              Examples.start)
    as (self' & g' & Hrun & _ & _ & _ & _ & _ & _ & Hact).
  - lia.
  - lia.
  - split; [reflexivity | repeat constructor].
  - split; [reflexivity | repeat constructor].
  - split; [reflexivity | repeat constructor].
  - split; [reflexivity | repeat constructor].
  - exact I.
  - by exists self', g'.
Defined.

End LinearMore.

(** ** What the constructor of the RBF controller leaves in the store *)

Section ConstructorFacts.

#[local] Arguments mkmat : simpl never.
#[local] Arguments mkvec : simpl never.

Lemma alloc_subseteq (σ : store) v : σ ⊆ <[fresh (dom σ) := v]> σ.
Proof. apply insert_subseteq, fresh_lookup. Qed.

Lemma built_weaken σ σ' data x i m :
  σ ⊆ σ' → ModelState.built σ data x i m → ModelState.built σ' data x i m.
Proof.
  intros Hsub (HX & Hdata & HY & Hl & Hv & Hlv).
  repeat split; try done; by eapply lookup_weaken.
Qed.

Lemma wp_new_kernel_values n st :
  wp (RbfController.new_kernel n)
    (λ k st',
       st.1 ⊆ st'.1 ∧ st'.2 = st.2 ∧
       st'.1 !! FakeGPR.variance k = Some (VScalar 1) ∧
       st'.1 !! FakeGPR.lengthscales k = Some (VVec (mkvec n (λ _, 1%R))))
    st.
Proof.
  unfold RbfController.new_kernel.
  apply wp_bind, wp_new. apply wp_bind, wp_new.
  eapply wp_bind, wp_reading.
  { unfold read_vec. simpl. by rewrite lookup_insert_eq. }
  apply wp_bind, wp_new. apply wp_ret. simpl.
  set (σ1 := <[fresh (dom st.1) := VScalar 1]> st.1).
  set (σ2 := <[fresh (dom σ1) := VVec (mkvec n (λ _, 1%R))]> σ1).
  assert (σ1 ⊆ <[fresh (dom σ2) := VVec (mkvec n (λ _, 1%R))]> σ2) as H13.
  { transitivity σ2; apply alloc_subseteq. }
  split; [| split; [done | split]].
  - transitivity σ1; [apply alloc_subseteq | exact H13].
  - eapply lookup_weaken; [| exact H13]. apply lookup_insert_eq.
  - apply lookup_insert_eq.
Qed.

Lemma wp_FakeGPR_init_values data kernel X lvv st :
  wp (FakeGPR.init data kernel X lvv)
    (λ m st',
       st.1 ⊆ st'.1 ∧ st'.2 = st.2 ∧ FakeGPR.kernel m = kernel ∧
       FakeGPR.data m = (FakeGPR.X m, FakeGPR.Y m) ∧
       st'.1 !! FakeGPR.Y m = Some (VMat data.2) ∧
       st'.1 !! FakeGPR.likelihood_variance m = Some (VScalar lvv) ∧
       match X with
       | Some x => FakeGPR.X m = x
       | None =>
           st.1 !! FakeGPR.X m = None ∧
           st'.1 !! FakeGPR.X m = Some (VMat data.1)
       end)
    st.
Proof.
  unfold FakeGPR.init.
  assert (Htail : ∀ x st1,
    wp (y ← new (VMat data.2);
        lv ← new (VScalar 1);
        _ ← assign_param lv (VScalar lvv);
        mret (FakeGPR.mk x y (x, y) kernel lv))
      (λ m st', st1.1 ⊆ st'.1 ∧ st'.2 = st1.2 ∧ FakeGPR.kernel m = kernel ∧
                FakeGPR.data m = (FakeGPR.X m, FakeGPR.Y m) ∧
                st'.1 !! FakeGPR.Y m = Some (VMat data.2) ∧
                st'.1 !! FakeGPR.likelihood_variance m = Some (VScalar lvv) ∧
                FakeGPR.X m = x) st1).
  { intros x st1. apply wp_bind, wp_new. apply wp_bind, wp_new.
    eapply wp_bind, wp_assign; [apply lookup_insert_eq | done |].
    apply wp_ret. simpl. rewrite insert_insert_eq.
    set (σ1 := <[fresh (dom st1.1) := VMat data.2]> st1.1).
    assert (σ1 ⊆ <[fresh (dom σ1) := VScalar lvv]> σ1) as H12
      by apply alloc_subseteq.
    split; [| split; [done | split; [done | split; [done | split]]]].
    - transitivity σ1; [apply alloc_subseteq | exact H12].
    - eapply lookup_weaken; [| exact H12]. apply lookup_insert_eq.
    - split; [apply lookup_insert_eq | done]. }
  destruct X as [x|].
  - apply wp_bind, wp_ret. eapply wp_mono; [| apply Htail].
    intros m st'. tauto.
  - apply wp_bind, wp_new. eapply wp_mono; [| apply Htail].
    simpl. intros m st' (Hsub & Hg & Hkernel & Hdata & HY & Hlv & HX).
    split; [| split; [done | split; [done | split; [done | split;
      [done | split; [done |]]]]]].
    + etransitivity; [apply alloc_subseteq | exact Hsub].
    + rewrite HX. split; [apply fresh_lookup |].
      eapply lookup_weaken; [| exact Hsub]. apply lookup_insert_eq.
Qed.

Lemma wp_create_models_tail_values data outputs : ∀ done models st x,
  Forall (λ i, i ≠ 0) outputs → models ≠ [] →
  Forall2 (ModelState.built st.1 data x) done models →
  wp (RbfController.create_models_loop data outputs models)
    (λ ms st',
       st.1 ⊆ st'.1 ∧ st'.2 = st.2 ∧
       Forall2 (ModelState.built st'.1 data x) (done ++ outputs) ms)
    st.
Proof.
  induction outputs as [|i outputs IH]; intros done models st x Hout Hne Hb.
  - apply wp_ret. rewrite app_nil_r. by split.
  - simpl. inversion Hout as [|? ? Hi Hout']; subst.
    eapply wp_bind, wp_mono; [| apply wp_new_kernel_values].
    intros kernel st1 (Hsub1 & Hg1 & Hkv & Hkl).
    rewrite decide_False by done.
    destruct (last models) as [prev|] eqn:Hlast;
      [| by apply last_None in Hlast].
    assert (FakeGPR.X prev = x) as Hprev.
    { apply last_Some in Hlast as [l' ->].
      apply Forall2_app_inv_r in Hb as (d1 & d2 & _ & Hb & _).
      apply Forall2_cons_inv_r in Hb as (d & d' & Hbuilt & _ & _).
      apply Hbuilt. }
    apply wp_bind. eapply wp_bind, wp_of_option; [done |]. apply wp_ret.
    eapply wp_bind, wp_mono; [| apply wp_FakeGPR_init_values].
    intros m st2 (Hsub2 & Hg2 & Hkernel & Hdata & HY & Hlv & HX).
    simpl in HX, HY.
    eapply wp_mono; [| apply (IH (done ++ [i]) (models ++ [m]) st2 x)].
    + intros ms st' (Hsub3 & Hg3 & Hb').
      split; [by do 2 (etransitivity; [eassumption |]) |].
      split; [congruence |]. by rewrite <- app_assoc in Hb'.
    + done.
    + by destruct models.
    + apply Forall2_app.
      * eapply Forall2_impl; [exact Hb |]. intros d m'.
        apply built_weaken. by etransitivity.
      * constructor; [| constructor].
        rewrite <- Hkernel in Hkv, Hkl.
        split; [congruence |]. split; [by rewrite Hdata, HX, Hprev |].
        split; [done |].
        split; [by eapply lookup_weaken |].
        split; [by eapply lookup_weaken | done].
Qed.

Lemma wp_create_models_values num_outputs data st :
  wp (RbfController.create_models num_outputs data)
    (λ ms st',
       st.1 ⊆ st'.1 ∧ st'.2 = st.2 ∧
       ∃ x, Forall2 (ModelState.built st'.1 data x) (seq 0 num_outputs) ms ∧
            (0 < num_outputs →
             st.1 !! x = None ∧ st'.1 !! x = Some (VMat data.1)))
    st.
Proof.
  unfold RbfController.create_models.
  destruct num_outputs as [|k].
  - apply wp_ret. split; [done |]. split; [done |]. exists 0.
    split; [constructor | lia].
  - simpl.
    eapply wp_bind, wp_mono; [| apply wp_new_kernel_values].
    intros kernel st1 (Hsub1 & Hg1 & Hkv & Hkl).
    apply wp_bind, wp_ret.
    eapply wp_bind, wp_mono; [| apply wp_FakeGPR_init_values].
    intros m st2 (Hsub2 & Hg2 & Hkernel & Hdata & HY & Hlv & Hfresh & HX).
    simpl in HY, HX.
    eapply wp_mono;
      [| apply (wp_create_models_tail_values data (seq 1 k) [0] [m] st2
                  (FakeGPR.X m))].
    + intros ms st' (Hsub3 & Hg3 & Hb').
      split; [by do 2 (etransitivity; [eassumption |]) |].
      split; [congruence |].
      exists (FakeGPR.X m). split; [exact Hb' |]. intros _. split.
      * destruct (st.1 !! FakeGPR.X m) as [v|] eqn:Hl; [| done].
        apply (lookup_weaken _ _ _ _ Hl) in Hsub1.
        by rewrite Hfresh in Hsub1.
      * by eapply lookup_weaken.
    + apply Forall_seq_nonzero. lia.
    + done.
    + constructor; [| constructor].
      rewrite <- Hkernel in Hkv, Hkl.
      split; [done |]. split; [done |]. split; [done |].
      split; [by eapply lookup_weaken |].
      split; [by eapply lookup_weaken | done].
Qed.

Lemma built_kernel_variance σ data x outputs ms :
  Forall2 (ModelState.built σ data x) outputs ms →
  Forall (λ m, σ !! FakeGPR.variance (FakeGPR.kernel m) = Some (VScalar 1)) ms.
Proof.
  induction 1 as [|i m outputs ms Hb _ IH]; constructor; [| done].
  apply Hb.
Qed.

Lemma wp_fix_kernel_variance_noop ms : ∀ st,
  Forall (λ m, st.1 !! FakeGPR.variance (FakeGPR.kernel m)
               = Some (VScalar 1)) ms →
  wp (RbfController.fix_kernel_variance ms) (λ _ st', st' = st) st.
Proof.
  induction ms as [|m ms IH]; intros st Hv; [by apply wp_ret |].
  simpl. inversion Hv as [|? ? Hm Hv']; subst.
  eapply wp_bind, wp_assign; [exact Hm | done |].
  rewrite insert_id by done.
  replace (st.1, st.2) with st by by destruct st.
  by apply IH.
Qed.

(** What [RbfController.__init__] returns and leaves in the store. *)
Lemma rbf_init_state (state_dim control_dim num_basis_functions : nat)
    (max_action : option action_bound) (st : store * draws) :
  let X0 := mkmat num_basis_functions state_dim
              (λ i j, st.2 (i * state_dim + j)) in
  let Y0 := smap (Rmult 0.1)
              (mkmat num_basis_functions control_dim
                 (λ i j, st.2 (num_basis_functions * state_dim
                               + (i * control_dim + j)))) in
  ∃ self σ' x,
    RbfController.init state_dim control_dim num_basis_functions max_action st
    = ((σ', λ n, st.2 (num_basis_functions * state_dim
                       + (num_basis_functions * control_dim + n))),
       Some self) ∧
    st.1 ⊆ σ' ∧
    RbfController.num_outputs self = ncols Y0 ∧
    RbfController.num_dims self = ncols X0 ∧
    RbfController.num_datapoints self = num_basis_functions ∧
    RbfController.max_action self = max_action ∧
    (0 < num_basis_functions →
     ncols Y0 = control_dim ∧ ncols X0 = state_dim) ∧
    Forall2 (ModelState.built σ' (X0, Y0) x) (seq 0 (ncols Y0))
      (RbfController.models self) ∧
    (0 < ncols Y0 → st.1 !! x = None ∧ σ' !! x = Some (VMat X0)).
Proof.
  intros X0 Y0.
  assert (wp (RbfController.init state_dim control_dim num_basis_functions
                max_action)
            (λ self st',
               st'.2 = (λ n, st.2 (num_basis_functions * state_dim
                          + (num_basis_functions * control_dim + n))) ∧
               st.1 ⊆ st'.1 ∧
               self = RbfController.mk (RbfController.models self)
                        (ncols Y0) (ncols X0) (nrows X0) max_action ∧
               ∃ x,
                 Forall2 (ModelState.built st'.1 (X0, Y0) x)
                   (seq 0 (ncols Y0)) (RbfController.models self) ∧
                 (0 < ncols Y0 →
                  st.1 !! x = None ∧ st'.1 !! x = Some (VMat X0))) st)
    as Hwp.
  { unfold RbfController.init, RbfController.MGPR_init.
    apply wp_bind, wp_draw_mat. apply wp_bind, wp_draw_mat.
    apply wp_bind, wp_bind.
    eapply wp_mono; [| apply wp_create_models_values].
    intros ms st1 (Hsub & Hg & x & Hb & Hx). simpl in *.
    apply wp_ret.
    eapply wp_bind, wp_mono; [| apply wp_fix_kernel_variance_noop].
    - intros [] st2 ->. apply wp_ret. simpl.
      split; [done |]. split; [done |]. split; [done |]. by exists x.
    - simpl. by eapply built_kernel_variance. }
  apply wp_run in Hwp as (self & [σ' g'] & Hrun & Hg & Hsub & Hself & x & Hb & Hx).
  simpl in Hg, Hsub, Hb, Hx. subst g'.
  exists self, σ', x. split; [exact Hrun |]. split; [done |].
  rewrite Hself. cbn [RbfController.num_outputs RbfController.num_dims
    RbfController.num_datapoints RbfController.max_action
    RbfController.models].
  split; [done |]. split; [done |].
  split; [apply nrows_mkmat |]. split; [done |].
  split; [| by split].
  intros Hnb. unfold Y0, X0. by rewrite ncols_smap, !ncols_mkmat.
Qed.

(** The constructor of the RBF controller returns.  It draws the inputs
    and then the targets, leaves every parameter that existed untouched,
    and builds one model per control dimension: every model holds the one
    new input parameter, its own column of the targets scaled by 0.1, unit
    lengthscales, kernel variance 1 and likelihood variance [1e-4]. *)
Theorem rbf_constructor_state (state_dim control_dim num_basis_functions : nat)
    (max_action : option action_bound) (st : store * draws) :
  0 < num_basis_functions →
  let X0 := mkmat num_basis_functions state_dim
              (λ i j, st.2 (i * state_dim + j)) in
  let Y0 := smap (Rmult 0.1)
              (mkmat num_basis_functions control_dim
                 (λ i j, st.2 (num_basis_functions * state_dim
                               + (i * control_dim + j)))) in
  ∃ self σ' x,
    RbfController.init state_dim control_dim num_basis_functions max_action st
    = ((σ', λ n, st.2 (num_basis_functions * state_dim
                       + (num_basis_functions * control_dim + n))),
       Some self) ∧
    st.1 ⊆ σ' ∧
    RbfController.num_outputs self = control_dim ∧
    RbfController.num_dims self = state_dim ∧
    RbfController.num_datapoints self = num_basis_functions ∧
    RbfController.max_action self = max_action ∧
    Forall2 (ModelState.built σ' (X0, Y0) x) (seq 0 control_dim)
      (RbfController.models self) ∧
    (0 < control_dim → st.1 !! x = None ∧ σ' !! x = Some (VMat X0)).
Proof.
  intros Hnb X0 Y0.
  destruct (rbf_init_state state_dim control_dim num_basis_functions
              max_action st)
    as (self & σ' & x & Hrun & Hsub & Hout & Hdims & Hpts & Hma & Hcols
        & Hbuilt & Hx).
  destruct (Hcols Hnb) as [HY HX]. fold X0 Y0 in Hbuilt, Hx, Hout, Hdims.
  fold Y0 in HY. fold X0 in HX.
  rewrite HY in Hbuilt, Hx, Hout. rewrite HX in Hdims.
  by exists self, σ', x.
Qed.

Lemma rbf_constructor_state_witness :
  ∃ self σ',
    RbfController.init 1 2 1 None Examples.start
    = ((σ', λ n, Examples.start.2 (1 * 1 + (1 * 2 + n))), Some self) ∧
    RbfController.num_outputs self = 2 ∧
    length (RbfController.models self) = 2.
Proof.
  destruct (rbf_constructor_state 1 2 1 None Examples.start)
    as (self & σ' & x & Hrun & _ & Hout & _ & _ & _ & Hbuilt & _); [lia |].
  exists self, σ'. split; [exact Hrun |]. split; [exact Hout |].
  by rewrite <- (Forall2_length _ _ _ Hbuilt).
Defined.

End ConstructorFacts.

(** ** Randomisation of the RBF controller: when it returns, when it raises *)

Section RandomizeMore.

#[local] Arguments mkmat : simpl never.
#[local] Arguments mkvec : simpl never.

Variable admissible : vec → bool.

Lemma read_mat_lookup (σ : store) l A :
  read_mat σ l = Some A → σ !! l = Some (VMat A).
Proof.
  unfold read_mat. destruct (σ !! l) as [[| |B]|]; try done. congruence.
Qed.





Lemma same_shape_drawn A f :
  same_shape (VMat A) (VMat (mkmat (nrows A) (ncols A) f)) = true.
Proof.
  simpl. apply bool_decide_eq_true.
  by rewrite nrows_mkmat, ncols_mkmat_of.
Qed.





(** The first model's inputs are redrawn, then the bound is missed. *)
Lemma randomize_without_bound_run (self : RbfController.t)
    (m : FakeGPR.t) (rest : list FakeGPR.t) (A : mat) (st : store * draws) :
  RbfController.max_action self = None →
  RbfController.models self = m :: rest →
  FakeGPR.data m = (FakeGPR.X m, FakeGPR.Y m) →
  read_mat st.1 (FakeGPR.X m) = Some A →
  RbfController.randomize admissible self st
  = ((<[FakeGPR.X m :=
         VMat (mkmat (nrows A) (ncols A) (λ i j, st.2 (i * ncols A + j)))]>
        st.1,
      λ n, st.2 (nrows A * ncols A + n)),
     None).
Proof.
  intros Hma Hmodels Hdata HA.
  unfold RbfController.randomize. rewrite Hma, Hmodels. simpl.
  unfold RbfController.randomize_model. rewrite Hdata. simpl.
  unfold mbind at 1. unfold eff_mbind, eff_bind.
  unfold mbind at 1. unfold eff_mbind, eff_bind.
  unfold mbind at 1. unfold eff_mbind, eff_bind.
  unfold reading at 1. rewrite HA.
  unfold mbind at 1. unfold eff_mbind, eff_bind.
  unfold draw_mat at 1. cbn [fst snd].
  unfold mbind at 1. unfold eff_mbind, eff_bind.
  unfold assign_param, assign. cbn [fst snd].
  rewrite (read_mat_lookup _ _ _ HA). cbn [mbind option_bind].
  rewrite same_shape_drawn. cbn [fst snd].
  reflexivity.
Qed.

(** With [max_action = None] [randomize] raises on the first model, after
    it has replaced the shared inputs by the first draws. *)
Theorem rbf_randomize_without_bound (self : RbfController.t)
    (m : FakeGPR.t) (rest : list FakeGPR.t) (A : mat) (st : store * draws) :
  RbfController.max_action self = None →
  RbfController.models self = m :: rest →
  FakeGPR.data m = (FakeGPR.X m, FakeGPR.Y m) →
  read_mat st.1 (FakeGPR.X m) = Some A →
  RbfController.randomize admissible self st
  = ((<[FakeGPR.X m :=
         VMat (mkmat (nrows A) (ncols A) (λ i j, st.2 (i * ncols A + j)))]>
        st.1,
      λ n, st.2 (nrows A * ncols A + n)),
     None).
Proof. apply randomize_without_bound_run. Qed.

End RandomizeMore.


Lemma rbf_randomize_without_bound_witness :
  (RbfController.randomize (λ _, true) Examples.rbf2
     (Examples.store2, λ _, 0%R)).2 = None.
Proof.
  by rewrite (rbf_randomize_without_bound (λ _, true) Examples.rbf2
                (FakeGPR.mk 3 4 (3, 4) (FakeGPR.mk_kernel 2 0) 5)
                [FakeGPR.mk 3 9 (3, 9) (FakeGPR.mk_kernel 8 6) 10]
                [[0%R]] (Examples.store2, λ _, 0%R)
                eq_refl eq_refl eq_refl eq_refl).
Defined.

(** ** The combined controller: its constructor, its gate, its centre *)

Section CombinedMore.

#[local] Arguments mkmat : simpl never.
#[local] Arguments mkvec : simpl never.

Lemma combined_init_run state_dim control_dim num_basis_functions
    controller_location max_action W st st1 rbf :
  RbfController.init state_dim control_dim num_basis_functions max_action st
  = (st1, Some rbf) →
  CombinedController.init state_dim control_dim num_basis_functions
    controller_location max_action W st
  = ((st1.1,
      match W with
      | Some _ => st1.2
      | None => λ n, st1.2 (control_dim * state_dim + n)
      end),
     Some (CombinedController.mk rbf
             (LinearController.mk
                match W with
                | Some W0 => W0
                | None => mkmat control_dim state_dim
                            (λ i j, st1.2 (i * state_dim + j))
                end
                (mkmat 1 control_dim (λ _ _, 0%R)) max_action)
             match controller_location with
             | Some l => l
             | None => mkmat 1 state_dim (λ _ _, 0%R)
             end
             (mkvec state_dim (λ _, 1%R)) (CombinedController.PyInt 1)
             max_action)).
Proof.
  intros Hrbf. unfold CombinedController.init.
  unfold mbind at 1. unfold eff_mbind, eff_bind. rewrite Hrbf.
  unfold CombinedController.linear_init.
  destruct W as [W0|], st1 as [σ1 g1]; reflexivity.
Qed.

(** The constructor of the combined controller returns: it builds the RBF
    controller first and the linear controller after it, with [W] as given
    or drawn after the draws of the RBF controller and a zero bias, centres
    the gate at the given location or at 0, and starts from unit scales and
    [r = 1]; [max_action] is handed to both sub-controllers. *)
Theorem combined_constructor_state
    (state_dim control_dim num_basis_functions : nat)
    (controller_location : option mat) (max_action : option action_bound)
    (W : option mat) (st : store * draws) :
  ∃ self st' rbf st1,
    RbfController.init state_dim control_dim num_basis_functions max_action st
    = (st1, Some rbf) ∧
    CombinedController.init state_dim control_dim num_basis_functions
      controller_location max_action W st = (st', Some self) ∧
    st'.1 = st1.1 ∧
    CombinedController.rbf_controller self = rbf ∧
    RbfController.max_action rbf = max_action ∧
    LinearController.max_action (CombinedController.linear_controller self)
    = max_action ∧
    CombinedController.max_action self = max_action ∧
    LinearController.W (CombinedController.linear_controller self)
    = match W with
      | Some W0 => W0
      | None => mkmat control_dim state_dim (λ i j, st1.2 (i * state_dim + j))
      end ∧
    LinearController.b (CombinedController.linear_controller self)
    = mkmat 1 control_dim (λ _ _, 0%R) ∧
    CombinedController.a self
    = match controller_location with
      | Some l => l
      | None => mkmat 1 state_dim (λ _ _, 0%R)
      end ∧
    CombinedController.S self = mkvec state_dim (λ _, 1%R) ∧
    CombinedController.r self = CombinedController.PyInt 1.
Proof.
  destruct (rbf_init_state state_dim control_dim num_basis_functions
              max_action st)
    as (rbf & σ' & x & Hrbf & _ & _ & _ & _ & Hma & _).
  eexists _, _, rbf, _. split; [exact Hrbf |].
  split; [by apply combined_init_run |]. by repeat split.
Qed.

(** A combined controller built with the default [max_action = None]
    cannot be randomised: [randomize] raises. *)
Theorem combined_default_randomize_raises (admissible : vec → bool)
    (state_dim control_dim num_basis_functions : nat)
    (controller_location W : option mat) (st : store * draws) :
  0 < control_dim → 0 < num_basis_functions →
  ∃ self st',
    CombinedController.init state_dim control_dim num_basis_functions
      controller_location None W st = (st', Some self) ∧
    (CombinedController.randomize admissible self st').2 = None.
Proof.
  intros Hcd Hnb.
  destruct (rbf_init_state state_dim control_dim num_basis_functions
              None st)
    as (rbf & σ' & x & Hrbf & _ & _ & _ & _ & Hma & Hcols & Hbuilt & Hx).
  destruct (Hcols Hnb) as [HY _]. rewrite HY in Hbuilt, Hx.
  destruct (Hx Hcd) as [_ HX0].
  destruct control_dim as [|k]; [lia |]. simpl in Hbuilt.
  inversion Hbuilt as [|? m ? rest (HXm & Hdata & _) _ Hseq Hmodels]; subst.
  eexists _, _. split; [by apply (combined_init_run _ _ _ _ _ _ _ _ _ Hrbf) |].
  unfold CombinedController.randomize.
  cbn [CombinedController.rbf_controller fst].
  by rewrite (randomize_without_bound_run admissible rbf m rest
                (mkmat num_basis_functions state_dim
                   (λ i j, st.2 (i * state_dim + j))))
    by (try done; unfold read_mat; cbn [fst]; by rewrite HX0).
Qed.

Lemma combined_default_randomize_raises_witness :
  ∃ self st',
    CombinedController.init 1 2 1 None None (Some [[1%R]; [0%R]])
      Examples.start = (st', Some self) ∧
    (CombinedController.randomize (λ _, true) self st').2 = None.
Proof.
  apply (combined_default_randomize_raises (λ _, true) 1 2 1 None
           (Some [[1%R]; [0%R]]) Examples.start); lia.
Defined.

(** The gate of a freshly built controller, with the default location:
    every state of the right width gets the ratio
    [1 / (1 + Σ x_l²)²]. *)
Theorem combined_fresh_ratio
    (state_dim control_dim num_basis_functions : nat)
    (max_action : option action_bound) (W : option mat)
    (st : store * draws) (x : mat) :
  0 < state_dim → has_shape 1 state_dim x →
  ∃ self st',
    CombinedController.init state_dim control_dim num_basis_functions
      None max_action W st = (st', Some self) ∧
    CombinedController.compute_ratio self x
    = Some [[ (1 / (sum_n state_dim (λ l, get2 x 0 l * get2 x 0 l) + 1) ^ 2)%R ]].
Proof.
  intros Hn Hx.
  destruct (rbf_init_state state_dim control_dim num_basis_functions
              max_action st) as (rbf & σ' & x0 & Hrbf & _).
  eexists _, _. split; [by apply (combined_init_run _ _ _ _ _ _ _ _ _ Hrbf) |].
  rewrite (compute_ratio_closed _ state_dim)
    by (done || apply has_shape_mkmat || apply length_mkvec).
  do 4 f_equal. unfold CombinedController.distance.
  cbn [CombinedController.a CombinedController.S].
  f_equal. f_equal. apply sum_n_ext. intros l Hl.
  rewrite get2_mkmat, get1_mkvec by lia. ring.
Qed.

Lemma combined_fresh_ratio_witness :
  ∃ self st',
    CombinedController.init 1 2 1 None None None Examples.start
    = (st', Some self) ∧
    CombinedController.compute_ratio self [[1%R]]
    = Some [[ (1 / (sum_n 1 (λ l, get2 [[1%R]] 0 l * get2 [[1%R]] 0 l) + 1) ^ 2)%R ]].
Proof.
  apply (combined_fresh_ratio 1 2 1 None None Examples.start [[1%R]]).
  - lia.
  - apply example_shape_1_1.
Defined.

Lemma sum_n_nonneg_zero n f :
  (∀ l, l < n → (0 <= f l)%R) → sum_n n f = 0%R → ∀ l, l < n → f l = 0%R.
Proof.
  induction n as [|n IH]; intros Hf Hsum l Hl; [lia |].
  simpl in Hsum.
  assert (0 <= sum_n n f)%R by (apply sum_n_nonneg; intros; apply Hf; lia).
  assert (0 <= f n)%R by (apply Hf; lia).
  destruct (decide (l = n)) as [-> | Hne]; [lra |].
  apply IH; [intros; apply Hf; lia | lra | lia].
Qed.

(** For positive trust scales the gate gives the linear controller full
    weight at the centre only: a state whose ratio is 1 is the centre
    [a]. *)
Theorem compute_ratio_one_only_at_centre (self : CombinedController.t)
    (n : nat) (x : mat) :
  0 < n → has_shape 1 n x → has_shape 1 n (CombinedController.a self) →
  length (CombinedController.S self) = n →
  (∀ i, i < n → (0 < get1 (CombinedController.S self) i)%R) →
  CombinedController.compute_ratio self x = Some [[1%R]] →
  x = CombinedController.a self.
Proof.
  intros Hn Hx Ha HS Hpos Hone.
  rewrite (compute_ratio_closed self n x Hn Hx Ha HS) in Hone.
  injection Hone as Hone.
  pose proof (distance_nonneg n x (CombinedController.a self)
                (CombinedController.S self) Hpos) as Hd.
  set (d := CombinedController.distance n x (CombinedController.a self)
              (CombinedController.S self)) in *.
  assert (d = 0%R) as Hd0.
  { assert (0 < (d + 1) ^ 2)%R as Hq by nra.
    assert ((d + 1) ^ 2 = 1)%R as Hsq.
    { change ((d + 1) * ((d + 1) * 1))%R with ((d + 1) ^ 2)%R in Hone.
      set (q := ((d + 1) ^ 2)%R) in *.
      assert (/ q * q = 1)%R as Hinv by (apply Rinv_l; lra).
      unfold Rdiv in Hone. rewrite Rmult_1_l in Hone. rewrite Hone in Hinv.
      lra. }
    nra. }
  unfold d, CombinedController.distance in Hd0.
  apply (mat_eq 1 n); [done | done |].
  intros i j Hi Hj. replace i with 0 by lia.
  assert (∀ l, l < n →
            (0 <= (get2 x 0 l - get2 (CombinedController.a self) 0 l)
                  * get1 (CombinedController.S self) l
                  * (get2 x 0 l - get2 (CombinedController.a self) 0 l))%R)
    as Hterms.
  { intros l Hl. specialize (Hpos l Hl).
    set (t := (get2 x 0 l - get2 (CombinedController.a self) 0 l)%R).
    replace (t * get1 (CombinedController.S self) l * t)%R
      with (get1 (CombinedController.S self) l * (t * t))%R by ring.
    apply Rmult_le_pos; [lra | nra]. }
  pose proof (sum_n_nonneg_zero n _ Hterms Hd0 j Hj) as Hterm.
  simpl in Hterm. specialize (Hpos j Hj).
  apply Rmult_integral in Hterm as [Hterm | Hterm]; [| lra].
  apply Rmult_integral in Hterm as [Hterm | Hterm]; lra.
Qed.

Lemma compute_ratio_one_only_at_centre_witness :
  [[0%R]] = CombinedController.a Examples.combined2.
Proof.
  apply (compute_ratio_one_only_at_centre Examples.combined2 1 [[0%R]]).
  - lia.
  - apply example_shape_1_1.
  - apply example_shape_1_1.
  - reflexivity.
  - intros i Hi. destruct i; [| lia]. unfold get1. simpl. lra.
  - rewrite (compute_ratio_closed Examples.combined2 1 [[0%R]]);
      [| lia | apply example_shape_1_1 | apply example_shape_1_1 | reflexivity].
    do 3 f_equal. unfold CombinedController.distance, get2, get1. simpl. lra.
Defined.

(** The gate closes with the distance: of two states, the one farther from
    the centre in the weighted distance gets the smaller ratio. *)
Theorem compute_ratio_decreasing (self : CombinedController.t)
    (n : nat) (x y : mat) :
  0 < n → has_shape 1 n x → has_shape 1 n y →
  has_shape 1 n (CombinedController.a self) →
  length (CombinedController.S self) = n →
  (∀ i, i < n → (0 < get1 (CombinedController.S self) i)%R) →
  (CombinedController.distance n x (CombinedController.a self)
     (CombinedController.S self)
   <= CombinedController.distance n y (CombinedController.a self)
        (CombinedController.S self))%R →
  ∃ ρx ρy,
    CombinedController.compute_ratio self x = Some [[ρx]] ∧
    CombinedController.compute_ratio self y = Some [[ρy]] ∧
    (0 < ρy <= ρx)%R.
Proof.
  intros Hn Hx Hy Ha HS Hpos Hle.
  pose proof (distance_nonneg n x (CombinedController.a self)
                (CombinedController.S self) Hpos) as Hdx.
  eexists _, _.
  split; [by apply (compute_ratio_closed self n x) |].
  split; [by apply (compute_ratio_closed self n y) |].
  set (dx := CombinedController.distance n x _ _) in *.
  set (dy := CombinedController.distance n y _ _) in *.
  assert (0 < (dx + 1) ^ 2)%R by nra.
  assert ((dx + 1) ^ 2 <= (dy + 1) ^ 2)%R by nra.
  unfold Rdiv. rewrite !Rmult_1_l. split.
  - apply Rinv_0_lt_compat. lra.
  - apply Rinv_le_contravar; lra.
Qed.

Lemma compute_ratio_decreasing_witness :
  ∃ ρx ρy,
    CombinedController.compute_ratio Examples.combined2 [[0%R]] = Some [[ρx]] ∧
    CombinedController.compute_ratio Examples.combined2 [[1%R]] = Some [[ρy]] ∧
    (0 < ρy <= ρx)%R.
Proof.
  apply (compute_ratio_decreasing Examples.combined2 1 [[0%R]] [[1%R]]).
  - lia.
  - apply example_shape_1_1.
  - apply example_shape_1_1.
  - apply example_shape_1_1.
  - reflexivity.
  - intros i Hi. destruct i; [| lia]. unfold get1. simpl. lra.
  - unfold CombinedController.distance, get2, get1. simpl. lra.
Defined.

(** At the centre of the gate the combined controller is the linear one:
    for [m = a] and [squash = False] it returns what the linear controller
    returns, whatever the RBF controller answers. *)
Theorem combined_at_centre (gp : RbfController.core) (σ : store)
    (self : CombinedController.t) (n c : nat) (s M1 S1 V1 M2 S2 V2 : mat) :
  0 < n → 0 < c →
  has_shape 1 n (CombinedController.a self) →
  length (CombinedController.S self) = n →
  LinearController.compute_action
    (CombinedController.linear_controller self) (CombinedController.a self)
    s false = Some (M1, S1, V1) →
  RbfController.compute_action gp σ
    (CombinedController.rbf_controller self) (CombinedController.a self)
    s false = Some (M2, S2, V2) →
  has_shape 1 c M1 → has_shape c c S1 → has_shape n c V1 →
  has_shape 1 c M2 → has_shape c c S2 → has_shape n c V2 →
  (CombinedController.compute_action gp σ self (CombinedController.a self)
     s false).2
  = Some (M1, S1, V1).
Proof.
  intros Hn Hc Ha HS H1 H2 HM1 HS1 HV1 HM2 HS2 HV2.
  rewrite (combined_closed gp σ self n c _ s M1 S1 V1 M2 S2 V2) by done.
  rewrite distance_self.
  replace (1 / (0 + 1) ^ 2)%R with 1%R by (simpl; field).
  f_equal. f_equal; [f_equal |].
  - etrans; [| symmetry; apply (mat_eta 1 c M1 HM1)].
    apply mkmat_ext. intros i j Hi Hj. ring.
  - etrans; [| symmetry; apply (mat_eta c c S1 HS1)].
    apply mkmat_ext. intros i j Hi Hj.
    rewrite (sum_n_zero c (λ l, (get2 M1 0 l - _) * _)%R).
    + ring.
    + intros l Hl. rewrite get2_mkmat by lia. ring.
  - etrans; [| symmetry; apply (mat_eta n c V1 HV1)].
    apply mkmat_ext. intros i j Hi Hj. ring.
Qed.

Lemma combined_at_centre_witness :
  (CombinedController.compute_action Examples.core2 Examples.store2
     Examples.combined2 [[0%R]] [[0%R]] false).2
  = LinearController.compute_action Examples.linear2 [[0%R]] [[0%R]] false.
Proof.
  etrans.
  - eapply (combined_at_centre Examples.core2 Examples.store2
              Examples.combined2 1 2 [[0%R]]);
      [lia | lia | apply example_shape_1_1 | reflexivity
      | reflexivity | reflexivity
      | apply example_shape_1_2 | apply example_shape_2_2
      | apply example_shape_1_2
      | apply example_shape_1_2 | apply example_shape_2_2
      | apply example_shape_1_2].
  - reflexivity.
Defined.

(** A state whose width is neither that of the centre nor 1 is rejected
    by the gate: [compute_action] raises before it has stored a ratio, and
    the controller is left as it was. *)
Theorem combined_state_dimension_mismatch (gp : RbfController.core)
    (σ : store) (self : CombinedController.t) (n k : nat) (m s : mat)
    (squash : bool) :
  0 < n → 0 < k → k ≠ n → k ≠ 1 → n ≠ 1 →
  has_shape 1 k m → has_shape 1 n (CombinedController.a self) →
  CombinedController.compute_action gp σ self m s squash = (self, None).
Proof.
  intros Hn Hk Hkn Hk1 Hn1 Hm Ha.
  unfold CombinedController.compute_action, CombinedController.compute_ratio.
  rewrite (mat_eta 1 k m Hm), (mat_eta 1 n _ Ha).
  by rewrite bop_mkmat_none by (try lia; by apply bdim_none).
Qed.

Lemma combined_state_dimension_mismatch_witness :
  CombinedController.compute_action Examples.core2 Examples.store2
    (CombinedController.mk Examples.rbf2 Examples.linear2 [[0%R; 0%R]]
       [1%R; 1%R] (CombinedController.PyInt 1) None)
    [[0%R; 0%R; 0%R]] [[0%R]] true
  = (CombinedController.mk Examples.rbf2 Examples.linear2 [[0%R; 0%R]]
       [1%R; 1%R] (CombinedController.PyInt 1) None, None).
Proof.
  apply (combined_state_dimension_mismatch _ _ _ 2 3); try lia.
  - split; [reflexivity | repeat constructor].
  - split; [reflexivity | repeat constructor].
Defined.

(** With [squash = True] the combined controller returns, and every entry
    of the action mean stays within the bound, for positive trust scales
    and sub-controller covariances with non-negative diagonals. *)
Theorem combined_squashed_mean_bounded (gp : RbfController.core) (σ : store)
    (self : CombinedController.t) (n c : nat) (m s M1 S1 V1 M2 S2 V2 : mat) :
  0 < n → 0 < c →
  has_shape 1 n m → has_shape 1 n (CombinedController.a self) →
  length (CombinedController.S self) = n →
  (∀ i, i < n → (0 < get1 (CombinedController.S self) i)%R) →
  bound_ok c (CombinedController.max_action self) →
  LinearController.compute_action
    (CombinedController.linear_controller self) m s false
  = Some (M1, S1, V1) →
  RbfController.compute_action gp σ
    (CombinedController.rbf_controller self) m s false
  = Some (M2, S2, V2) →
  has_shape 1 c M1 → has_shape c c S1 → has_shape n c V1 →
  has_shape 1 c M2 → has_shape c c S2 → has_shape n c V2 →
  (∀ i, i < c → (0 <= get2 S1 i i)%R) →
  (∀ i, i < c → (0 <= get2 S2 i i)%R) →
  ∃ M S0 V,
    (CombinedController.compute_action gp σ self m s true).2
    = Some (M, S0, V) ∧
    has_shape 1 c M ∧ has_shape c c S0 ∧ has_shape n c V ∧
    ∀ i, i < c →
      (Rabs (get2 M 0 i)
       <= Rabs (bound_at (CombinedController.max_action self) i))%R.
Proof.
  intros Hn Hc Hm Ha HS Hpos Hok H1 H2 HM1 HS1 HV1 HM2 HS2 HV2 Hd1 Hd2.
  rewrite (combined_unfold gp σ self m s true _ _ _
             (compute_ratio_closed self n m Hn Hm Ha HS) H1 H2).
  cbn [snd]. rewrite (mix_closed n c) by done. cbn [mbind option_bind].
  pose proof (distance_nonneg n m (CombinedController.a self)
                (CombinedController.S self) Hpos) as Hd.
  set (d := CombinedController.distance n m _ _) in *.
  assert (0 < 1 / (d + 1) ^ 2 <= 1)%R as Hρ.
  { assert (1 <= (d + 1) ^ 2)%R by nra.
    unfold Rdiv. rewrite Rmult_1_l. split.
    - apply Rinv_0_lt_compat. lra.
    - rewrite <- Rinv_1. apply Rinv_le_contravar; lra. }
  set (ρ := (1 / (d + 1) ^ 2)%R) in *.
  rewrite (squash_sin_closed c) by (done || apply has_shape_mkmat).
  cbn [mbind option_bind]. unfold squash_cross at 1.
  rewrite matmul_mkmat by lia. cbn [mbind option_bind].
  eexists _, _, _. split; [done |].
  split; [apply has_shape_mkmat |]. split; [apply has_shape_mkmat |].
  split; [apply has_shape_mkmat |].
  intros i Hi. unfold squash_mean. rewrite get2_mkmat by lia.
  apply damped_sine_bound. rewrite get2_mkmat by lia.
  specialize (Hd1 i Hi). specialize (Hd2 i Hi).
  assert (0 <= ρ * get2 S1 i i)%R by (apply Rmult_le_pos; lra).
  assert (0 <= (1 - ρ) * get2 S2 i i)%R by (apply Rmult_le_pos; lra).
  assert (∀ (w : R) (f : nat → R), (0 <= w)%R →
            (0 <= sum_n c (λ l, w * f l * f l))%R) as Hsq.
  { intros w f Hw. apply sum_n_nonneg. intros l Hl.
    rewrite Rmult_assoc. apply Rmult_le_pos; [done | nra]. }
  pose proof (Hsq ρ (λ l, get2 M1 0 l
                - (ρ * get2 M1 0 l + (1 - ρ) * get2 M2 0 l))%R) as Hs1.
  pose proof (Hsq (1 - ρ)%R (λ l, get2 M2 0 l
                - (ρ * get2 M1 0 l + (1 - ρ) * get2 M2 0 l))%R) as Hs2.
  simpl in Hs1, Hs2. lra.
Qed.

Lemma combined_squashed_mean_bounded_witness :
  ∃ M S0 V,
    (CombinedController.compute_action Examples.core2 Examples.store2
       Examples.combined2 [[1%R]] [[0%R]] true).2 = Some (M, S0, V) ∧
    (Rabs (get2 M 0 0) <= Rabs 1)%R.
Proof.
  edestruct (combined_squashed_mean_bounded Examples.core2 Examples.store2
               Examples.combined2 1 2 [[1%R]] [[0%R]])
    as (M & S0 & V & Hrun & _ & _ & _ & Hbound);
    [lia | lia | apply example_shape_1_1 | apply example_shape_1_1
    | reflexivity
    | intros i Hi; destruct i; [| lia]; unfold get1; simpl; lra
    | exact I
    | apply example_linear | apply example_rbf
    | apply example_shape_1_2 | apply example_shape_2_2
    | apply example_shape_1_2
    | apply example_shape_1_2 | apply example_shape_2_2
    | apply example_shape_1_2
    | intros i Hi; destruct i as [|[|i]]; [| | lia]; unfold get2; simpl; lra
    | intros i Hi; destruct i as [|[|i]]; [| | lia]; unfold get2; simpl; lra
    |].
  exists M, S0, V. split; [exact Hrun |]. apply (Hbound 0). lia.
Defined.

End CombinedMore.

(** ** Linearisation: which points it accepts, what it returns *)

Section LinearizeMore.

#[local] Arguments mkmat : simpl never.
#[local] Arguments mkvec : simpl never.

Lemma matmul_returns r n c A B :
  0 < r → 0 < n → has_shape r n A → has_shape n c B →
  ∃ C, matmul A B = Some C ∧ has_shape r c C.
Proof.
  intros Hr Hn HA HB.
  rewrite (mat_eta r n A HA), (mat_eta n c B HB), matmul_mkmat by done.
  eexists. split; [done | apply has_shape_mkmat].
Qed.

Lemma reshape_flat_returns r c flat :
  length flat = r * c →
  ∃ A, reshape_flat r c flat = Some A ∧ has_shape r c A.
Proof.
  intros Hl. unfold reshape_flat. rewrite decide_True by done.
  eexists. split; [done | apply has_shape_mkmat].
Qed.

Lemma has_shape_smap f r c A : has_shape r c A → has_shape r c (smap f A).
Proof.
  intros HA. rewrite (mat_eta r c A HA), smap_mkmat. apply has_shape_mkmat.
Qed.

Lemma has_shape_transpose r c A :
  0 < r → has_shape r c A → has_shape c r (transpose A).
Proof.
  intros Hr HA. rewrite (mat_eta r c A HA), transpose_mkmat by done.
  apply has_shape_mkmat.
Qed.

Lemma item_returns A : has_shape 1 1 A → ∃ x, item A = Some x.
Proof.
  intros HA. rewrite (mat_eta 1 1 A HA), item_mkmat. by eexists.
Qed.

Lemma center_step_returns σ n m loc acc center :
  0 < n → has_shape 1 n loc → length center = n →
  (∃ var, read_vec σ (FakeGPR.lengthscales (FakeGPR.kernel m)) = Some var ∧
          length var = n) →
  (∃ kv, read_scalar σ (FakeGPR.variance (FakeGPR.kernel m)) = Some kv) →
  ModelState.column_or_zero n acc →
  ∃ acc', RbfController.center_step σ n m loc acc center = Some acc' ∧
          (∃ w, acc'.2 = Some w ∧ has_shape n 1 w).
Proof.
  intros Hn Hloc Hcenter (var & Hvar & Hlen) (kv & Hkv) Hacc.
  unfold RbfController.center_step.
  rewrite Hvar. cbn [mbind option_bind].
  assert (has_shape 1 n (row_of center)) as Hrow
    by (split; [done | by repeat constructor]).
  rewrite (bop_shape_same Rminus 1 n loc (row_of center)) by (done || lia).
  cbn [mbind option_bind].
  destruct (reshape_flat_returns n 1 (concat (mkmat 1 n
              (λ i j, (get2 loc i j - get2 (row_of center) i j)%R))))
    as (temp & Htemp & Hshape).
  { rewrite concat_mkmat_length. lia. }
  unfold reshape2. rewrite Htemp. cbn [mbind option_bind].
  rewrite Hkv. cbn [mbind option_bind].
  rewrite (exp_term_closed n kv var temp) by done. cbn [mbind option_bind].
  unfold RbfController.differential_term.
  assert (has_shape n n (diag (map (λ v, (1 / v)%R) var))) as Hdiag.
  { pose proof (has_shape_diag (map (λ v, (1 / v)%R) var)) as H.
    by rewrite length_map, Hlen in H. }
  destruct (matmul_returns n n 1 _ temp Hn Hn Hdiag Hshape)
    as (Pt & HPt & HPt_shape).
  rewrite HPt. cbn [mbind option_bind].
  set (e := (kv * exp _)%R).
  pose proof (has_shape_smap (Rmult e) n 1 Pt HPt_shape) as Hdt.
  set (dt := smap (Rmult e) Pt) in *.
  destruct (reshape_flat_returns n 1 center) as (c & Hc & Hc_shape); [lia |].
  rewrite Hc. cbn [mbind option_bind].
  destruct (matmul_returns 1 n 1 (transpose dt) c)
    as (dtc & Hdtc & Hdtc_shape);
    [lia | done | by apply has_shape_transpose | done |].
  rewrite Hdtc. cbn [mbind option_bind].
  destruct (item_returns (smap (λ x, (e - x)%R) dtc)) as (bi & Hbi);
    [by apply has_shape_smap |].
  rewrite Hbi. cbn [mbind option_bind].
  unfold ModelState.column_or_zero in Hacc.
  destruct (acc.2) as [w|].
  - unfold RbfController.add_inplace.
    rewrite (bop_shape_same Rplus n 1 w dt) by done.
    cbn [mbind option_bind].
    rewrite nrows_mkmat, ncols_mkmat by done.
    rewrite decide_True
      by (split; symmetry;
          [by apply (has_shape_nrows n 1) | by apply (has_shape_ncols n 1)]).
    cbn [mbind option_bind]. eexists. split; [done |].
    eexists. split; [done | apply has_shape_mkmat].
  - cbn [mbind option_bind]. eexists. split; [done |].
    eexists. split; [done | by apply has_shape_smap].
Qed.

Lemma centers_loop_returns σ n m loc centers acc :
  0 < n → has_shape 1 n loc → Forall (λ c, length c = n) centers →
  (∃ var, read_vec σ (FakeGPR.lengthscales (FakeGPR.kernel m)) = Some var ∧
          length var = n) →
  (∃ kv, read_scalar σ (FakeGPR.variance (FakeGPR.kernel m)) = Some kv) →
  ModelState.column_or_zero n acc →
  ∃ acc', RbfController.centers_loop σ n m loc centers acc = Some acc' ∧
          ModelState.column_or_zero n acc' ∧
          (centers ≠ [] → ∃ w, acc'.2 = Some w).
Proof.
  intros Hn Hloc Hcs Hvar Hkv. revert acc.
  induction Hcs as [|center centers Hc Hcs IH]; intros acc Hacc; simpl.
  - by exists acc.
  - destruct (center_step_returns σ n m loc acc center)
      as (acc1 & Hstep & w1 & Hw1 & Hw1_shape); try done.
    rewrite Hstep. cbn [mbind option_bind].
    destruct (IH acc1) as (acc' & Hloop & Hacc' & Hw).
    { unfold ModelState.column_or_zero. by rewrite Hw1. }
    exists acc'. split; [done |]. split; [done |]. intros _.
    destruct centers as [|c2 centers'].
    + simpl in Hloop. simplify_eq. by exists w1.
    + by apply Hw.
Qed.

Lemma averaged_fits n total acc :
  0 < total → ModelState.column_or_zero n acc →
  ∃ p, RbfController.averaged total acc = Some p ∧ ModelState.pair_fits n p.
Proof.
  intros Htotal Hacc. unfold RbfController.averaged.
  rewrite decide_False by lia. eexists. split; [done |].
  unfold ModelState.pair_fits, ModelState.column_or_zero in *. simpl.
  destruct (acc.2) as [w|].
  - by apply has_shape_smap.
  - unfold Rdiv. apply Rmult_0_l.
Qed.

Lemma models_loop_returns σ self loc ms acc out :
  0 < RbfController.num_dims self → 0 < RbfController.num_datapoints self →
  has_shape 1 (RbfController.num_dims self) loc →
  Forall (ModelState.linearizable σ (RbfController.num_dims self)) ms →
  ModelState.column_or_zero (RbfController.num_dims self) acc →
  Forall (ModelState.pair_fits (RbfController.num_dims self)) out →
  ∃ out', RbfController.models_loop σ self loc ms acc out = Some out' ∧
          length out' = length out + length ms ∧
          Forall (ModelState.pair_fits (RbfController.num_dims self)) out'.
Proof.
  intros Hn Htotal Hloc Hms. revert acc out.
  induction Hms as [|m ms Hm Hms IH]; intros acc out Hacc Hout; simpl.
  - exists out. split; [done |]. split; [lia | done].
  - destruct Hm as ((centers & Hcenters & Hlens) & Hvar & Hkv).
    rewrite Hcenters. cbn [mbind option_bind].
    destruct (centers_loop_returns σ _ m loc centers acc Hn Hloc Hlens Hvar
                Hkv Hacc) as (acc' & Hloop & Hacc' & _).
    rewrite Hloop. cbn [mbind option_bind].
    destruct (averaged_fits _ _ acc' Htotal Hacc') as (p & Hp & Hfits).
    rewrite Hp. cbn [mbind option_bind].
    destruct (IH acc' (out ++ [p])) as (out' & Hrun & Hlen & Hall).
    + done.
    + apply Forall_app. split; [done | by constructor].
    + exists out'. split; [done |]. split; [| done].
      rewrite Hlen, length_app. simpl. lia.
Qed.

(** About a point given as a 1×n row, [linearize] returns: one pair per
    model, in which the weight is an n×1 column (or the number 0 when no
    centre has been visited yet), once the inputs, lengthscales and kernel
    variance of every model fit the n state dimensions and the controller
    has at least one basis function. *)
Theorem linearize_returns (σ : store) (self : RbfController.t) (loc : mat) :
  0 < RbfController.num_dims self → 0 < RbfController.num_datapoints self →
  has_shape 1 (RbfController.num_dims self) loc →
  Forall (ModelState.linearizable σ (RbfController.num_dims self))
    (RbfController.models self) →
  ∃ out,
    RbfController.linearize σ self loc = Some out ∧
    length out = length (RbfController.models self) ∧
    Forall (λ p, match p.1 with
                 | RbfController.WeightNumber x => x = 0%R
                 | RbfController.WeightArray A =>
                     has_shape (RbfController.num_dims self) 1 A
                 end) out.
Proof.
  intros Hn Htotal Hloc Hms. unfold RbfController.linearize.
  destruct (models_loop_returns σ self loc (RbfController.models self)
              (0%R, None) [] Hn Htotal Hloc Hms)
    as (out & Hrun & Hlen & Hall); [done | constructor |].
  exists out. split; [done |]. split; [done |]. exact Hall.
Qed.

Lemma linearize_returns_witness :
  ∃ out,
    RbfController.linearize Examples.store2 Examples.rbf2 [[1%R]] = Some out ∧
    length out = 2.
Proof.
  destruct (linearize_returns Examples.store2 Examples.rbf2 [[1%R]])
    as (out & Hrun & Hlen & _).
  - simpl. lia.
  - simpl. lia.
  - apply example_shape_1_1.
  - repeat constructor;
      try (eexists; split; [reflexivity | by repeat constructor]);
      by eexists.
  - by exists out.
Defined.




End LinearizeMore.
